(** * Trade Raven: the trade watcher, the name resolver and the week clock

    A shallow embedding of [Trade_Raven.py].  The module-level variables of
    the script ([known_trade_ids], [ktc_values], [ktc_source_used],
    [user_map], [current_bot_week], [WEEK_2_START_DATE]) together with the
    [players] table of [ktc.db], the lines written by [print] and the
    messages handed to the Discord channel form the record [world]; every
    function of the script is a computation in the monad [M], which threads
    a [world] and may end in a Python exception.

    Conventions.
    - KTC values are [float]s in the script.  The [value_1qb] column holds
      whole numbers, on which float sums and differences are exact, so a
      value is an integer ([Z]) here.
    - A [datetime] is the number of microseconds since the epoch.
    - JSON documents have the constructors of [json]; [true]/[false] and
      fractional numbers do not occur in the fields the script reads and
      are left out.
    - A [str] is a sequence of ASCII characters: [len] counts them and
      [strip] removes ASCII white space.
    - [user_map] maps a roster id to a team name, a [str].
    - [sqlite3] is taken to be available: the [players] table is a finite
      map and reading or writing it does not raise. *)

From Stdlib Require Import ZArith QArith Ascii List Lia.
From stdpp Require Import base gmap strings list fin_maps pretty.

Open Scope Z_scope.

(** ** JSON documents and hashable keys *)

#[warnings="-register-all"]
Inductive json :=
| JNull
| JNum (n : Z)
| JStr (s : string)
| JArr (items : list json)
| JObj (fields : list (string * json)).

(** What Python can put in a [set] or use as a [dict] key: [None], an
    [int] or a [str]; a [list] or a [dict] is unhashable. *)
Inductive hkey :=
| HNone
| HInt (n : Z)
| HStr (s : string).

#[global] Instance hkey_eq_dec : EqDecision hkey.
Proof. solve_decision. Defined.

#[global] Program Instance hkey_countable : Countable hkey :=
  inj_countable'
    (fun h => match h with
              | HNone => inl tt
              | HInt n => inr (inl n)
              | HStr s => inr (inr s)
              end)
    (fun x : unit + (Z + string) =>
       match x with
       | inl _ => HNone
       | inr (inl n) => HInt n
       | inr (inr s) => HStr s
       end) _.
Next Obligation. by intros []. Qed.

Definition hash (j : json) : option hkey :=
  match j with
  | JNull => Some HNone
  | JNum n => Some (HInt n)
  | JStr s => Some (HStr s)
  | JArr _ | JObj _ => None
  end.

(** [str(x)] for a key, as an f-string renders it. *)
Definition py_str (h : hkey) : string :=
  match h with
  | HNone => "None"
  | HInt n => pretty n
  | HStr s => s
  end.

(** ** Exceptions, the world and the monad *)

Inductive exn :=
| AttributeError
| TypeError
| KeyError
| ValueError
| RequestException
| HTTPError
| ClientError
| Forbidden
| HTTPException.

Inductive verdict :=
| FairTrade
| WinsBy (winner : string) (points : Z).

(** The embed built for one trade (lines 314-329): the two teams, what
    each gets, their totals and the footer. *)
Record embed := Embed {
  embed_team0 : string;
  embed_gets0 : string;
  embed_team1 : string;
  embed_gets1 : string;
  embed_v0 : Z;
  embed_v1 : Z;
  footer : verdict
}.

(** How Discord answers one attempt to announce. *)
Inductive send_outcome :=
| NoChannel                     (* bot.get_channel returns None *)
| SendRaised (e : exn)          (* channel.send raises *)
| ReactionRaised (e : exn)      (* the message is posted, add_reaction raises *)
| Delivered.

(** One call of [channel.send]. *)
Record delivery := Delivery {
  sent_tid : json;
  sent_embed : embed;
  sent_outcome : send_outcome
}.

(** The lines the script prints, one constructor per [print] call. *)
Inductive line :=
| SaySaving (name : string) (val : Z)
| SaySavedAll
| SaySimilarHeader (query : string)
| SaySimilarRow (name : string)
| SayLoaded (n : nat)
| SayNoValues
| SayLoadError (e : exn)
| SayLookingUp (name_input : string)
| SayOverriding (name_input : string)
| SayExact (name_input : string)
| SayClose (best name_input : string)
| SayNoMatch (name_input : string)
| SayWeek (week : Z)
| SayChecking
| SayFetched (n : nat) (week : Z)
| SayTxn (tid ttype tstatus : json)
| SayNotEnough (tid : json)
| SayNoChannel
| SaySent (tid : json)
| SayNoPermission
| SaySendFailed (e : exn).

Record world := World {
  known_trade_ids : gset hkey;
  ktc_values : gmap string Z;
  ktc_source_used : string;
  user_map : gmap hkey string;
  current_bot_week : Z;
  WEEK_2_START_DATE : Z;
  players : gmap string Z;       (* table players of ktc.db: player_name, ktc_value *)
  stdout : list line;
  outbox : list delivery;        (* the calls of channel.send, oldest first *)
  discord_calls : nat            (* how often Discord was consulted *)
}.

Inductive res (A : Type) :=
| Val (a : A)
| Exc (e : exn).
Arguments Val {A} a.
Arguments Exc {A} e.

Definition M (A : Type) : Type := world -> res A * world.

#[global] Instance M_ret : MRet M := fun A a w => (Val a, w).
#[global] Instance M_bind : MBind M := fun A B f m w =>
  match m w with
  | (Val a, w') => f a w'
  | (Exc e, w') => (Exc e, w')
  end.

Definition raise {A} (e : exn) : M A := fun w => (Exc e, w).
Definition get : M world := fun w => (Val w, w).
Definition modify (f : world -> world) : M unit := fun w => (Val tt, f w).

(** [try: body except Exception as e: handler(e)] *)
Definition try_except {A} (body : M A) (handler : exn -> M A) : M A := fun w =>
  match body w with
  | (Val a, w') => (Val a, w')
  | (Exc e, w') => handler e w'
  end.

Definition print (l : line) : M unit :=
  modify (fun w =>
    World (known_trade_ids w) (ktc_values w) (ktc_source_used w) (user_map w)
          (current_bot_week w) (WEEK_2_START_DATE w) (players w)
          (stdout w ++ [l]) (outbox w) (discord_calls w)).

Definition set_current_bot_week (week : Z) : M unit :=
  modify (fun w =>
    World (known_trade_ids w) (ktc_values w) (ktc_source_used w) (user_map w)
          week (WEEK_2_START_DATE w) (players w)
          (stdout w) (outbox w) (discord_calls w)).

(** ** WeekClock (lines 232-260) *)

Definition microseconds_per_day : Z := 86400 * 1000000.

(** [timedelta.days] of a difference of two datetimes. *)
Definition days (delta : Z) : Z := delta / microseconds_per_day.

(** Line 234: midnight of the day of start-up, plus two days. *)
Definition week2_start_at_ready (now : Z) : Z :=
  (now - now mod microseconds_per_day) + 2 * microseconds_per_day.

(** One run of the 24-hour task, [today] being [datetime.now(UTC)]. *)
Definition update_bot_week (today : Z) : M unit :=
  w ← get;
  if bool_decide (WEEK_2_START_DATE w <= today) then
    let days_passed := days (today - WEEK_2_START_DATE w) in
    set_current_bot_week (2 + days_passed / 7);;
    w' ← get;
    print (SayWeek (current_bot_week w'))
  else mret tt.

(** The [forceweek] command; the reply to the user is not modelled. *)
Definition forceweek (week : Z) : M unit :=
  set_current_bot_week week.

Definition set_ktc_values (d : gmap string Z) : M unit :=
  modify (fun w =>
    World (known_trade_ids w) d (ktc_source_used w) (user_map w)
          (current_bot_week w) (WEEK_2_START_DATE w) (players w)
          (stdout w) (outbox w) (discord_calls w)).

Definition set_players (t : gmap string Z) : M unit :=
  modify (fun w =>
    World (known_trade_ids w) (ktc_values w) (ktc_source_used w) (user_map w)
          (current_bot_week w) (WEEK_2_START_DATE w) t
          (stdout w) (outbox w) (discord_calls w)).

(** [for x in l: body(x)], for a body without [continue] or [return]. *)
Fixpoint for_ {A} (l : list A) (body : A -> M unit) : M unit :=
  match l with
  | [] => mret tt
  | x :: l' => body x;; for_ l' body
  end.

(** ** What the script calls and does not define

    - [matches a b]: the number of matched characters that
      [difflib.SequenceMatcher] finds between [a] (set by [set_seq1]) and
      [b] (set by [set_seq2]), the sum of the sizes of
      [get_matching_blocks()];
    - [sqlite_like pattern text]: SQLite's [text LIKE pattern];
    - [float_of_str s]: [float(s)], [None] where it raises [ValueError]. *)
Class Externals := {
  matches : string -> string -> nat;
  sqlite_like : string -> string -> bool;
  float_of_str : string -> option Z
}.

Section Bot.
Context {ext : Externals}.

(** ** ValueStore (lines 68-113) *)

(** The [INSERT ... ON CONFLICT(player_name) DO UPDATE] of one pair; the
    column [last_updated] is read nowhere and is left out. *)
Definition upsert (name : string) (val : Z) : M unit :=
  w ← get;
  set_players (<[name := val]> (players w)).

(** The lines [Saving to DB] come in the order in which the table
    enumerates its items. *)
Definition save_ktc_to_db (ktc_dict : gmap string Z) : M unit :=
  for_ (map_to_list ktc_dict) (fun item =>
    print (SaySaving item.1 item.2);;
    upsert item.1 item.2);;
  print SaySavedAll.

Definition load_ktc_from_db : M (gmap string Z) :=
  w ← get;
  mret (players w).

Definition find_similar_names_in_db (query : string) : M unit :=
  w ← get;
  let results :=
    List.filter (sqlite_like ("%" +:+ query +:+ "%"))
                (map fst (map_to_list (players w))) in
  print (SaySimilarHeader query);;
  for_ results (fun r => print (SaySimilarRow r)).

(** ** ValueIngestor (lines 132-153) *)

(** What [requests.get(DP_CSV_URL, timeout=10)] gives: an exception, or a
    response with its status code and the rows that [csv.DictReader]
    reads from its text, each a dict from column name to cell.  A cell is
    a [str]: the [None] with which [DictReader] fills a row that is too
    short is not modelled. *)
Inductive http_reply :=
| GetRaised (e : exn)
| Response (status_code : Z) (rows : list (gmap string string)).

(** The dict comprehension of line 137: the key is evaluated before the
    value, and a later row overwrites an earlier one of the same player. *)
Fixpoint dict_of_rows (rows : list (gmap string string)) (acc : gmap string Z)
  : res (gmap string Z) :=
  match rows with
  | [] => Val acc
  | row :: rest =>
    match row !! "player" with
    | None => Exc KeyError
    | Some player =>
      match row !! "value_1qb" with
      | None => Exc KeyError
      | Some cell =>
        match float_of_str cell with
        | None => Exc ValueError
        | Some value => dict_of_rows rest (<[player := value]> acc)
        end
      end
    end
  end.

Definition fetch_dp_values (resp : http_reply) : M (gmap string Z) :=
  match resp with
  | GetRaised e => raise e
  | Response status_code rows =>
    (* resp.raise_for_status() *)
    if bool_decide (400 <= status_code < 600) then raise HTTPError
    else match dict_of_rows rows ∅ with
         | Val dp => mret dp
         | Exc e => raise e
         end
  end.

(** Line 147 has no [global] declaration, so Python binds a name local to
    the function: the [let] below, which nothing reads. *)
Definition update_ktc (resp : http_reply) : M unit :=
  try_except
    (dp ← fetch_dp_values resp;
     if bool_decide (dp ≠ ∅) then
       set_ktc_values ∅;;                              (* ktc_values.clear() *)
       w ← get;
       set_ktc_values (dp ∪ ktc_values w);;            (* ktc_values.update(dp) *)
       let ktc_source_used := "DynastyProcess CSV" in
       w ← get;
       save_ktc_to_db (ktc_values w);;
       print (SayLoaded (size dp))
     else print SayNoValues)
    (fun e => print (SayLoadError e)).

(** The [ktcsource] command: the label it puts in its reply. *)
Definition ktcsource : M string :=
  w ← get;
  mret (ktc_source_used w).

(** ** NameResolver (lines 42-49, 155-177) *)

Definition manual_ktc_overrides : gmap string string :=
  list_to_map [
    ("Ken Walker", "Kenneth Walker III");
    ("DJ Moore", "D.J. Moore");
    ("CMC", "Christian McCaffrey");
    ("JJ", "Justin Jefferson");
    ("Bijan", "Bijan Robinson");
    ("Tyreek", "Tyreek Hill")
  ].

(** [str.isspace] on the ASCII range: tab to carriage return, the four
    separators 28-31 and the space. *)
Definition is_space (c : ascii) : bool :=
  let n := nat_of_ascii c in
  ((9 <=? n) && (n <=? 13) || (28 <=? n) && (n <=? 32))%nat.

Fixpoint lstrip (s : string) : string :=
  match s with
  | String c s' => if is_space c then lstrip s' else s
  | EmptyString => EmptyString
  end.

Definition rstrip (s : string) : string := String.rev (lstrip (String.rev s)).

Definition strip (s : string) : string := rstrip (lstrip s).

(** [SequenceMatcher.ratio()]: [2.0 * matches / length], and [1.0] when both
    strings are empty.  The quotient of two integers below [2^26] is
    compared here as a rational, which orders such floats the same way. *)
Definition ratio (a b : string) : Q :=
  match (String.length a + String.length b)%nat with
  | O => 1%Q
  | S n => (2 * Z.of_nat (matches a b)) # (Pos.of_succ_nat n)
  end.

(** Python's [<] on the tuples [(score, x)]. *)
Definition tuple_lt (p q : Q * string) : bool :=
  match (p.1 ?= q.1)%Q with
  | Lt => true
  | Eq => String.ltb p.2 q.2
  | Gt => false
  end.

(** [heapq.nlargest(n, result)] is [sorted(result, reverse=True)[:n]]. *)
Fixpoint insert_desc (p : Q * string) (sorted : list (Q * string)) : list (Q * string) :=
  match sorted with
  | [] => [p]
  | q :: rest => if tuple_lt p q then q :: insert_desc p rest else p :: sorted
  end.

Definition nlargest (n : nat) (result : list (Q * string)) : list (Q * string) :=
  take n (foldr insert_desc [] result).

(** [difflib.get_close_matches].  Its two cheaper tests,
    [real_quick_ratio() >= cutoff] and [quick_ratio() >= cutoff], are upper
    bounds of [ratio()] and let through whatever [ratio() >= cutoff] does. *)
Definition get_close_matches (word : string) (possibilities : list string)
    (n : nat) (cutoff : Q) : list string :=
  let result :=
    omap (fun x => if Qle_bool cutoff (ratio x word)
                   then Some (ratio x word, x) else None) possibilities in
  map snd (nlargest n result).

(** [ktc_values.keys()] *)
Definition keys (d : gmap string Z) : list string := map fst (map_to_list d).

(** [get_ktc_value(player_name, return_best_match=True)]; without the flag
    the caller gets the first component only. *)
Definition get_ktc_value (player_name : string) : M (Z * option string) :=
  let name_input := strip player_name in
  print (SayLookingUp name_input);;
  name_input ←
    match manual_ktc_overrides !! name_input with
    | Some canonical => print (SayOverriding canonical);; mret canonical
    | None => mret name_input
    end;
  w ← get;
  match ktc_values w !! name_input with
  | Some value => print (SayExact name_input);; mret (value, Some name_input)
  | None =>
    match get_close_matches name_input (keys (ktc_values w)) 1 (1 # 2) with
    | best :: _ =>
      print (SayClose best name_input);;
      match ktc_values w !! best with               (* ktc_values[best] *)
      | Some value => mret (value, Some best)
      | None => raise KeyError
      end
    | [] =>
      print (SayNoMatch name_input);;
      find_similar_names_in_db name_input;;
      mret (0, None)
    end
  end.

(** What [get_ktc_value] returns, as a function of the value table and the
    name: the [resolve] of the design, steps 1 to 5. *)
Definition resolve (table : gmap string Z) (player_name : string) : Z * option string :=
  let name_input := strip player_name in
  let name_input := default name_input (manual_ktc_overrides !! name_input) in
  match table !! name_input with
  | Some value => (value, Some name_input)
  | None =>
    match get_close_matches name_input (keys table) 1 (1 # 2) with
    | best :: _ => (default 0 (table !! best), Some best)
    | [] => (0, None)
    end
  end.

(** ** Reading Sleeper's JSON (lines 180-185) *)

Definition fetch_json (reply : res json) : M json :=
  match reply with
  | Val document => mret document
  | Exc e => raise e
  end.

(** The value under [key] in a parsed object, whose keys are distinct. *)
Definition assoc (key : string) (fields : list (string * json)) : option json :=
  snd <$> List.find (fun kv => String.eqb kv.1 key) fields.

(** [obj.get(key, dflt)]: a method of dicts only. *)
Definition dict_get (obj : json) (key : string) (dflt : json) : M json :=
  match obj with
  | JObj fields => mret (default dflt (assoc key fields))
  | _ => raise AttributeError
  end.

(** [obj.items()] *)
Definition dict_items (obj : json) : M (list (string * json)) :=
  match obj with
  | JObj fields => mret fields
  | _ => raise AttributeError
  end.

Definition chars (s : string) : list json :=
  map (fun c => JStr (String c EmptyString)) (String.list_ascii_of_string s).

(** [len(x)] *)
Definition py_len (x : json) : M nat :=
  match x with
  | JArr items => mret (length items)
  | JObj fields => mret (length fields)
  | JStr s => mret (String.length s)
  | JNull | JNum _ => raise TypeError
  end.

(** The items a [for] loop over [x] visits: the items of a list, the keys
    of a dict, the characters of a string; nothing else is iterable. *)
Definition elements_of (x : json) : option (list json) :=
  match x with
  | JArr items => Some items
  | JObj fields => Some (map (fun kv => JStr kv.1) fields)
  | JStr s => Some (chars s)
  | JNull | JNum _ => None
  end.

Definition py_iter (x : json) : M (list json) :=
  match elements_of x with
  | Some items => mret items
  | None => raise TypeError
  end.

(** [x[:2]]; a dict raises [TypeError] (a [KeyError] from Python 3.12 on). *)
Definition slice2 (x : json) : M (list json) :=
  match x with
  | JArr items => mret (take 2 items)
  | JStr s => mret (take 2 (chars s))
  | JNull | JNum _ | JObj _ => raise TypeError
  end.

(** Hashing a value, as a set or dict lookup does first. *)
Definition hashed (x : json) : M hkey :=
  match hash x with
  | Some h => mret h
  | None => raise TypeError
  end.

Fixpoint contains (needle hay : string) : bool :=
  String.prefix needle hay ||
  match hay with
  | String _ hay' => contains needle hay'
  | EmptyString => false
  end.

Definition is_str (s : string) (x : json) : bool :=
  match x with
  | JStr s' => String.eqb s' s
  | _ => false
  end.

(** ["full_name" in pdata] *)
Definition has_full_name (pdata : json) : M bool :=
  match pdata with
  | JObj fields => mret (bool_decide (is_Some (assoc "full_name" fields)))
  | JArr items => mret (existsb (is_str "full_name") items)
  | JStr s => mret (contains "full_name" s)
  | JNull | JNum _ => raise TypeError
  end.

(** [pdata["full_name"]] *)
Definition full_name (pdata : json) : M json :=
  match pdata with
  | JObj fields =>
    match assoc "full_name" fields with
    | Some name => mret name
    | None => raise KeyError
    end
  | _ => raise TypeError
  end.

Fixpoint name_map_of (items : list (string * json)) (acc : gmap string json)
  : M (gmap string json) :=
  match items with
  | [] => mret acc
  | (pid, pdata) :: rest =>
    keep ← has_full_name pdata;
    if keep : bool then
      name ← full_name pdata;
      name_map_of rest (<[pid := name]> acc)
    else name_map_of rest acc
  end.

Definition get_player_name_map (players_json : json) : M (gmap string json) :=
  items ← dict_items players_json;
  name_map_of items ∅.

(** ** TradeWatcher (lines 266-345) *)

Record sleeper := Sleeper {
  get_transactions : Z -> res json;     (* .../transactions/{week} *)
  get_players : res json                (* .../players/nfl *)
}.

Inductive flow := Continue | Return.

(** A [for] loop whose body may [continue] or [return]. *)
Fixpoint for_each {A} (l : list A) (body : A -> M flow) : M unit :=
  match l with
  | [] => mret tt
  | x :: l' =>
    c ← body x;
    match c with
    | Continue => for_each l' body
    | Return => mret tt
    end
  end.

(** [get_ktc_value(n)] on whatever the name map holds: line 156 calls
    [strip], which only a [str] has. *)
Definition get_ktc_value_of (n : json) : M Z :=
  match n with
  | JStr player_name => r ← get_ktc_value player_name; mret r.1
  | _ => raise AttributeError
  end.

(** [sum(get_ktc_value(n) for n in names)] *)
Fixpoint sum_values (names : list json) (acc : Z) : M Z :=
  match names with
  | [] => mret acc
  | n :: rest => value ← get_ktc_value_of n; sum_values rest (acc + value)
  end.

(** [", ".join(names)] *)
Fixpoint join (names : list json) : M string :=
  match names with
  | [] => mret ""
  | JStr s :: rest =>
    tail ← join rest;
    mret (match rest with [] => s | _ => s +:+ ", " +:+ tail end)
  | _ :: _ => raise TypeError
  end.

(** Lines 295-296 *)
Fixpoint reverse_of (items : list (string * json)) (reverse : gmap hkey (list string))
  : M (gmap hkey (list string)) :=
  match items with
  | [] => mret reverse
  | (pid, rid) :: rest =>
    k ← hashed rid;
    reverse_of rest (<[k := default [] (reverse !! k) ++ [pid]]> reverse)
  end.

(** Lines 323-328 *)
Definition result_text (team0 team1 : string) (v0 v1 : Z) : verdict :=
  let diff := v0 - v1 in
  if bool_decide (Z.abs diff < 200) then FairTrade
  else
    let winner := if bool_decide (0 < diff) then team0 else team1 in
    WinsBy winner (Z.abs diff).

Definition set_known_trade_ids (ids : gset hkey) : M unit :=
  modify (fun w =>
    World ids (ktc_values w) (ktc_source_used w) (user_map w)
          (current_bot_week w) (WEEK_2_START_DATE w) (players w)
          (stdout w) (outbox w) (discord_calls w)).

(** [bot.get_channel] followed by the sends: what Discord does this time. *)
Definition consult (discord : nat -> send_outcome) : M send_outcome :=
  w ← get;
  modify (fun w =>
    World (known_trade_ids w) (ktc_values w) (ktc_source_used w) (user_map w)
          (current_bot_week w) (WEEK_2_START_DATE w) (players w)
          (stdout w) (outbox w) (S (discord_calls w)));;
  mret (discord (discord_calls w)).

(** Lines 337-339: [channel.send] and the two [add_reaction]s. *)
Definition channel_send (tid : json) (e : embed) (outcome : send_outcome) : M unit :=
  modify (fun w =>
    World (known_trade_ids w) (ktc_values w) (ktc_source_used w) (user_map w)
          (current_bot_week w) (WEEK_2_START_DATE w) (players w)
          (stdout w) (outbox w ++ [Delivery tid e outcome]) (discord_calls w));;
  match outcome with
  | SendRaised e | ReactionRaised e => raise e
  | NoChannel | Delivered => mret tt
  end.

(** The body of the loop of line 281. *)
Definition announce (discord : nat -> send_outcome) (name_map : gmap string json)
    (txn : json) : M flow :=
  tid ← dict_get txn "transaction_id" JNull;
  ttype ← dict_get txn "type" JNull;
  tstatus ← dict_get txn "status" JNull;
  print (SayTxn tid ttype tstatus);;
  if negb (is_str "trade" ttype) || negb (is_str "complete" tstatus)
  then mret Continue
  else
    k ← hashed tid;
    w ← get;
    if bool_decide (k ∈ known_trade_ids w) then mret Continue
    else
      adds ← dict_get txn "adds" (JObj []);
      items ← dict_items adds;
      reverse ← reverse_of items ∅;
      roster_ids ← dict_get txn "roster_ids" (JArr []);
      rosters ← slice2 roster_ids;
      match rosters with
      | r0 :: r1 :: _ =>
        k0 ← hashed r0;
        let t0_ids := default [] (reverse !! k0) in
        k1 ← hashed r1;
        let t1_ids := default [] (reverse !! k1) in
        let t0_names := map (fun pid => default (JStr pid) (name_map !! pid)) t0_ids in
        let t1_names := map (fun pid => default (JStr pid) (name_map !! pid)) t1_ids in
        v0 ← sum_values t0_names 0;
        v1 ← sum_values t1_names 0;
        w ← get;
        let team0 := default ("Team " +:+ py_str k0) (user_map w !! k0) in
        let team1 := default ("Team " +:+ py_str k1) (user_map w !! k1) in
        gets0 ← join t0_names;
        gets1 ← join t1_names;
        let embed :=
          Embed team0 (if String.eqb gets0 "" then "None" else gets0)
                team1 (if String.eqb gets1 "" then "None" else gets1)
                v0 v1 (result_text team0 team1 v0 v1) in
        outcome ← consult discord;
        match outcome with
        | NoChannel => print SayNoChannel;; mret Return
        | _ =>
          try_except
            (channel_send tid embed outcome;;
             w ← get;
             set_known_trade_ids ({[k]} ∪ known_trade_ids w);;
             print (SaySent tid))
            (fun e =>
               match e with
               | Forbidden => print SayNoPermission
               | _ => print (SaySendFailed e)
               end);;
          mret Continue
        end
      | _ => print (SayNotEnough tid);; mret Continue
      end.

(** Line 271: [week_override if week_override else current_bot_week];
    [None] and [0] are both false. *)
Definition current_week_of (week_override : option Z) (w : world) : Z :=
  match week_override with
  | Some week => if bool_decide (week ≠ 0) then week else current_bot_week w
  | None => current_bot_week w
  end.

Definition fetch_and_announce_trades (api : sleeper) (discord : nat -> send_outcome)
    (week_override : option Z) : M unit :=
  print SayChecking;;
  w ← get;
  let current_week := current_week_of week_override w in
  transactions ← fetch_json (get_transactions api current_week);
  player_data ← fetch_json (get_players api);
  n ← py_len transactions;
  print (SayFetched n current_week);;
  name_map ← get_player_name_map player_data;
  txns ← py_iter transactions;
  for_each txns (announce discord name_map).

End Bot.

(** ** The externals, written out

    [difflib] without junk (its heuristic for popular characters applies to
    words of 200 characters and more), SQLite's [LIKE] with its two
    wildcards and its ASCII case folding, and [float] on strings of decimal
    digits; [float_of_digits] has no answer for the other strings that [float]
    reads (signs, fractions, exponents), and no example below uses one. *)
Module Reference.

Fixpoint common_prefix (a b : string) : nat :=
  match a, b with
  | String x a', String y b' =>
    if Ascii.eqb x y then S (common_prefix a' b') else O
  | _, _ => O
  end.

(** [find_longest_match]: the longest block, and of those the one that
    starts earliest in [a], then earliest in [b]. *)
Fixpoint scan_b (a b : string) (i j : nat) (best : nat * nat * nat) : nat * nat * nat :=
  match b with
  | EmptyString => best
  | String _ b' =>
    let k := common_prefix a b in
    scan_b a b' i (S j) (if (best.2 <? k)%nat then (i, j, k) else best)
  end.

Fixpoint scan_a (a b : string) (i : nat) (best : nat * nat * nat) : nat * nat * nat :=
  match a with
  | EmptyString => best
  | String _ a' => scan_a a' b (S i) (scan_b a b i O best)
  end.

Definition find_longest_match (a b : string) : nat * nat * nat :=
  scan_a a b O (O, O, O).

(** The total size of [get_matching_blocks()]: the longest block, then the
    same to its left and to its right. *)
Fixpoint matching (fuel : nat) (a b : string) : nat :=
  match fuel with
  | O => O
  | S fuel' =>
    let '(i, j, k) := find_longest_match a b in
    if (k =? 0)%nat then O
    else
      (k + matching fuel' (String.substring 0 i a) (String.substring 0 j b)
         + matching fuel'
             (String.substring (i + k) (String.length a - (i + k)) a)
             (String.substring (j + k) (String.length b - (j + k)) b))%nat
  end.

Definition count_matches (a b : string) : nat := matching (String.length a) a b.

Definition lower (c : ascii) : ascii :=
  let n := nat_of_ascii c in
  if ((65 <=? n) && (n <=? 90))%nat then ascii_of_nat (n + 32) else c.

Fixpoint like (pattern : string) : string -> bool :=
  match pattern with
  | EmptyString => fun text => match text with EmptyString => true | _ => false end
  | String c pattern' =>
    if Ascii.eqb c "%" then
      fix any (text : string) : bool :=
        like pattern' text ||
        match text with
        | EmptyString => false
        | String _ text' => any text'
        end
    else if Ascii.eqb c "_" then
      fun text => match text with String _ text' => like pattern' text' | _ => false end
    else
      fun text =>
        match text with
        | String d text' => Ascii.eqb (lower c) (lower d) && like pattern' text'
        | _ => false
        end
  end.

Fixpoint digits (s : string) (acc : Z) : option Z :=
  match s with
  | EmptyString => Some acc
  | String c s' =>
    match Ascii.is_nat c with
    | Some d => digits s' (10 * acc + Z.of_nat d)
    | None => None
    end
  end.

Definition float_of_digits (s : string) : option Z :=
  match s with
  | EmptyString => None
  | _ => digits s 0
  end.

Definition externals : Externals :=
  {| matches := count_matches;
     sqlite_like := like;
     float_of_str := float_of_digits |}.

End Reference.

(** The module-level state of lines 37-51, with the threshold that
    [on_ready] sets and the table that [ktc.db] holds. *)
Definition initial_world (week2_start : Z) (db : gmap string Z) : world :=
  World ∅ ∅ "unknown" ∅ 1 week2_start db [] [] 0.

(** The world after running a computation, and its result. *)
Definition exec {A} (m : M A) (w : world) : world := snd (m w).
Definition eval {A} (m : M A) (w : world) : res A := fst (m w).

(** A computation leaves a component of the world as it found it. *)
Definition preserves {A B} (field : world -> B) (m : M A) : Prop :=
  forall w, field (exec m w) = field w.

(** From a world where [P] holds a computation ends, returning or raising,
    in a world where [Q] holds. *)
Definition leads {A} (P : world -> Prop) (m : M A) (Q : world -> Prop) : Prop :=
  forall w, P w -> Q (exec m w).

(** A property of the set of known trades and of the messages sent. *)
Definition on_trades (I : gset hkey -> list delivery -> Prop) : world -> Prop :=
  fun w => I (known_trade_ids w) (outbox w).

(** What a transaction holds under a key: [txn.get(key)]. *)
Definition txn_field (key : string) (txn : json) : json :=
  match txn with
  | JObj fields => default JNull (assoc key fields)
  | _ => JNull
  end.

(** The transactions a poll cycle iterates over: the feed of the week it
    asks for. *)
Definition feed (api : sleeper) (week_override : option Z) (w : world) : list json :=
  match get_transactions api (current_week_of week_override w) with
  | Val transactions => default [] (elements_of transactions)
  | Exc _ => []
  end.

(** A message in the channel is accounted for by a transaction of the
    feed: a completed trade whose id was not known when the cycle began,
    with the footer that lines 323-328 give its two totals. *)
Definition accounted (known : gset hkey) (txns : list json) (d : delivery) : Prop :=
  (exists txn k,
      txn ∈ txns
      /\ sent_tid d = txn_field "transaction_id" txn
      /\ txn_field "type" txn = JStr "trade"
      /\ txn_field "status" txn = JStr "complete"
      /\ hash (sent_tid d) = Some k
      /\ k ∉ known)
  /\ footer (sent_embed d)
     = result_text (embed_team0 (sent_embed d)) (embed_team1 (sent_embed d))
                   (embed_v0 (sent_embed d)) (embed_v1 (sent_embed d)).

(** The state of a poll cycle under way, begun with [known] and [sent]. *)
Definition cycle_inv (known : gset hkey) (sent : list delivery) (txns : list json)
  : gset hkey -> list delivery -> Prop :=
  fun known' sent' =>
    known ⊆ known'
    /\ exists new, sent' = sent ++ new /\ Forall (accounted known txns) new.

(** ** Sample data *)
Module Sample.

Definition table : gmap string Z :=
  list_to_map [
    ("Christian McCaffrey", 9000);
    ("Justin Jefferson", 8500);
    ("Travis Kelce Jr", 4000)
  ].

(** A league of two rosters; week 2 starts on 2025-09-09 00:00 UTC. *)
Definition week2_start : Z := 1757376000 * 1000000.

Definition league : world :=
  World ∅ table "unknown" {[HInt 1 := "Falcons"; HInt 2 := "Ravens"]} 1
        week2_start table [] [] 0.

(** The same league after the trade 1002 has been announced. *)
Definition league_after_1002 : world :=
  World {[HStr "1002"]} table "unknown" {[HInt 1 := "Falcons"; HInt 2 := "Ravens"]} 1
        week2_start table [] [] 0.

(** The same league with a value table that holds the alias and not the
    canonical name. *)
Definition alias_only : world :=
  World ∅ {["CMC" := 100]} "unknown" ∅ 1 week2_start ∅ [] [] 0.

Definition directory : json :=
  JObj [
    ("4034", JObj [("full_name", JStr "Christian McCaffrey")]);
    ("6794", JObj [("full_name", JStr "Justin Jefferson")]);
    ("1466", JObj [("full_name", JStr "Travis Kelce Jr")])
  ].

Definition trade (tid : string) (adds : json) : json :=
  JObj [
    ("transaction_id", JStr tid);
    ("type", JStr "trade");
    ("status", JStr "complete");
    ("adds", adds);
    ("roster_ids", JArr [JNum 1; JNum 2])
  ].

(** Roster 1 gets Kelce, roster 2 gets McCaffrey. *)
Definition players_swap : json := trade "1002" (JObj [("1466", JNum 1); ("4034", JNum 2)]).

(** A trade of draft picks only: Sleeper sends ["adds": null]. *)
Definition picks_only : json := trade "1001" JNull.

Definition waiver : json :=
  JObj [
    ("transaction_id", JStr "1003");
    ("type", JStr "waiver");
    ("status", JStr "complete");
    ("adds", JObj [("6794", JNum 1)]);
    ("roster_ids", JArr [JNum 1])
  ].

(** The message that announces [players_swap] in [league]. *)
Definition swap_message : delivery :=
  Delivery (JStr "1002")
           (Embed "Falcons" "Travis Kelce Jr" "Ravens" "Christian McCaffrey"
                  4000 9000 (WinsBy "Ravens" 5000))
           Delivered.

Definition api (transactions : list json) : sleeper :=
  Sleeper (fun _ => Val (JArr transactions)) (Val directory).

Definition delivers : nat -> send_outcome := fun _ => Delivered.

(** The bot starts at 01:00 UTC two days before week 2, and the week is
    recomputed 24 hours later. *)
Definition started : Z := week2_start - 2 * microseconds_per_day + 3600 * 1000000.
Definition next_day : Z := started + microseconds_per_day.

Definition csv_rows : list (gmap string string) :=
  [ {["player" := "Bijan Robinson"; "pos" := "RB"; "value_1qb" := "9876"]};
    {["player" := "Tyreek Hill"; "pos" := "WR"; "value_1qb" := "5432"]} ].

End Sample.

(** ** The commands [ktcvalue] and [tradecompare] (lines 448-471)

    A command's reply is what it returns here; the [ctx.send] that delivers
    it is not modelled. *)
Section Commands.
Context {ext : Externals}.

(** [str.lower] on ASCII letters. *)
Fixpoint lower (s : string) : string :=
  match s with
  | EmptyString => EmptyString
  | String c s' => String (Reference.lower c) (lower s')
  end.



(** [s.split(sep)] for a separator of one character. *)
Fixpoint split (sep : ascii) (s : string) : list string :=
  match s with
  | EmptyString => [EmptyString]
  | String c s' =>
    if Ascii.eqb c sep then EmptyString :: split sep s'
    else match split sep s' with
         | segment :: rest => String c segment :: rest
         | [] => [String c EmptyString]
         end
  end.





(** ** Notions for the properties of the watcher *)

(** The known ids after an attempt to announce the id [k]. *)
Definition known_after (k : hkey) (known : gset hkey) (outcome : send_outcome)
  : gset hkey :=
  match outcome with
  | Delivered => {[k]} ∪ known
  | _ => known
  end.

(** The ids of the messages that were delivered. *)
Definition delivered_ids (sent : list delivery) : list hkey :=
  omap (fun d => match sent_outcome d with
                 | Delivered => hash (sent_tid d)
                 | _ => None
                 end) sent.

(** The players that the adds give to the roster [k], in the order of the
    adds, and the names shown for them. *)
Definition side_ids (items : list (string * json)) (k : hkey) : list string :=
  (List.filter (fun item => bool_decide (hash item.2 = Some k)) items).*1.

Definition side_names (name_map : gmap string json) (items : list (string * json))
    (k : hkey) : list json :=
  map (fun pid => default (JStr pid) (name_map !! pid)) (side_ids items k).

(** The sum of what the names resolve to. *)
Definition total (table : gmap string Z) (names : list string) : Z :=
  foldr Z.add 0 (map (fun n => (resolve table n).1) names).

(** [", ".join(names) or "None"] *)
Fixpoint joined (names : list string) : string :=
  match names with
  | [] => ""
  | s :: rest => match rest with [] => s | _ => s +:+ ", " +:+ joined rest end
  end.

Definition shown (names : list string) : string :=
  if String.eqb (joined names) "" then "None" else joined names.

(** The characters below 128 for which Python's [str.isspace] holds: tab,
    line feed, vertical tab, form feed, carriage return, the separators
    28 to 31 and the space. *)
Definition white_space : list ascii :=
  ["009"; "010"; "011"; "012"; "013"; "028"; "029"; "030"; "031"; " "]%char.

(** Two worlds that differ in what was printed at most. *)
Definition quiet (w w' : world) : Prop :=
  known_trade_ids w' = known_trade_ids w
  /\ ktc_values w' = ktc_values w
  /\ ktc_source_used w' = ktc_source_used w
  /\ user_map w' = user_map w
  /\ current_bot_week w' = current_bot_week w
  /\ WEEK_2_START_DATE w' = WEEK_2_START_DATE w
  /\ players w' = players w
  /\ outbox w' = outbox w
  /\ discord_calls w' = discord_calls w.

(** What a finished part of a poll cycle has done: [new] are the messages
    it sent, in the order of the transactions [seen] it went through. *)
Definition cycle_account (discord : nat -> send_outcome)
    (known : gset hkey) (sent : list delivery) (seen : list json)
  : gset hkey -> list delivery -> Prop :=
  fun known' sent' =>
    exists new,
      sent' = sent ++ new
      /\ known' = known ∪ list_to_set (delivered_ids new)
      /\ NoDup (delivered_ids new)
      /\ Forall (fun k => k ∉ known) (delivered_ids new)
      /\ Forall (fun d => exists n, sent_outcome d = discord n
                                    /\ discord n ≠ NoChannel) new
      /\ sublist (sent_tid <$> new) (txn_field "transaction_id" <$> seen).

End Commands.

(* ================================================================== *)
(** * Theorems *)

(** ** The monad *)

Lemma run_bind {A B} (m : M A) (f : A -> M B) w :
  (m ≫= f) w = match m w with
               | (Val a, w') => f a w'
               | (Exc e, w') => (Exc e, w')
               end.
Proof. reflexivity. Qed.

Lemma run_eta {A} (m : M A) w : m w = (eval m w, exec m w).
Proof. unfold eval, exec. by destruct (m w). Qed.

Lemma exec_bind {A B} (m : M A) (f : A -> M B) w a :
  eval m w = Val a -> exec (m ≫= f) w = exec (f a) (exec m w).
Proof.
  unfold eval, exec. rewrite run_bind.
  destruct (m w) as [[a'|e] w']; simpl; congruence.
Qed.

Lemma eval_bind {A B} (m : M A) (f : A -> M B) w a :
  eval m w = Val a -> eval (m ≫= f) w = eval (f a) (exec m w).
Proof.
  unfold eval, exec. rewrite run_bind.
  destruct (m w) as [[a'|e] w']; simpl; congruence.
Qed.

Lemma preserves_ret {A B} (field : world -> B) (a : A) : preserves field (mret a).
Proof. by intros w. Qed.

Lemma preserves_raise {A B} (field : world -> B) e : preserves field (raise (A:=A) e).
Proof. by intros w. Qed.

Lemma preserves_get {B} (field : world -> B) : preserves field get.
Proof. by intros w. Qed.

Lemma preserves_bind {A B C} (field : world -> C) (m : M A) (f : A -> M B) :
  preserves field m -> (forall a, preserves field (f a)) -> preserves field (m ≫= f).
Proof.
  intros Hm Hf w. unfold exec. rewrite run_bind.
  specialize (Hm w). unfold exec in Hm.
  destruct (m w) as [[a|e] w1]; simpl in *; [|done].
  rewrite <- Hm. apply Hf.
Qed.

Lemma preserves_try {A C} (field : world -> C) (body : M A) handler :
  preserves field body -> (forall e, preserves field (handler e)) ->
  preserves field (try_except body handler).
Proof.
  intros Hm Hf w. unfold exec, try_except.
  specialize (Hm w). unfold exec in Hm.
  destruct (body w) as [[a|e] w1]; simpl in *; [done|].
  rewrite <- Hm. apply Hf.
Qed.

Lemma preserves_for_ {A C} (field : world -> C) (l : list A) body :
  (forall x, preserves field (body x)) -> preserves field (for_ l body).
Proof.
  intros Hb. induction l as [|x l IH]; simpl.
  - apply preserves_ret.
  - apply preserves_bind; [apply Hb | by intros _].
Qed.

Lemma preserves_for_each {A C} (field : world -> C) (l : list A) body :
  (forall x, preserves field (body x)) -> preserves field (for_each l body).
Proof.
  intros Hb. induction l as [|x l IH]; simpl.
  - apply preserves_ret.
  - apply preserves_bind; [apply Hb |].
    intros [|]; [apply IH | apply preserves_ret].
Qed.

(** Decomposes a goal [preserves field m] along the shape of [m]. *)
Ltac frame_step :=
  first
    [ apply preserves_ret
    | apply preserves_raise
    | apply preserves_get
    | apply preserves_bind; [|intros ?]
    | apply preserves_try; [|intros ?]
    | apply preserves_for_; intros ?
    | apply preserves_for_each; intros ?
    | by intros ?
    | match goal with
      | |- preserves _ (match ?x with _ => _ end) => destruct x
      | |- preserves _ (let _ := _ in _) => cbv zeta
      end ].
Ltac frame := repeat frame_step.

Section Properties.
Context {ext : Externals}.

(** ** WeekClock *)

Lemma update_bot_week_before today w :
  today < WEEK_2_START_DATE w -> update_bot_week today w = (Val tt, w).
Proof.
  intros H. unfold update_bot_week. rewrite run_bind. simpl.
  rewrite bool_decide_eq_false_2 by lia. reflexivity.
Qed.

Lemma update_bot_week_after today w :
  WEEK_2_START_DATE w <= today ->
  current_bot_week (exec (update_bot_week today) w)
  = 2 + days (today - WEEK_2_START_DATE w) / 7.
Proof.
  intros H. unfold exec, update_bot_week. rewrite run_bind. simpl.
  rewrite bool_decide_eq_true_2 by lia. reflexivity.
Qed.

Lemma forceweek_sets week w :
  current_bot_week (exec (forceweek week) w) = week
  /\ WEEK_2_START_DATE (exec (forceweek week) w) = WEEK_2_START_DATE w.
Proof. done. Qed.

(** C5.  With the week-2 threshold [T]: a recomputation strictly before
    [T] leaves the default week 1 in place; at [T] the week is 2; eight
    days after [T] it is 3; and at any time from [T] on it is 2 plus the
    whole days elapsed since [T], divided by 7 and rounded down. *)
Theorem week_derivation (T today : Z) (w : world) :
  WEEK_2_START_DATE w = T ->
  let week := current_bot_week (exec (update_bot_week today) w) in
  (today < T -> current_bot_week w = 1 -> week = 1)
  /\ (today = T -> week = 2)
  /\ (today = T + 8 * microseconds_per_day -> week = 3)
  /\ (T <= today -> week = 2 + (today - T) / microseconds_per_day / 7).
Proof.
  intros HT week. subst week T. repeat split.
  - intros Hlt Hdefault. unfold exec. by rewrite update_bot_week_before.
  - intros ->. rewrite update_bot_week_after by lia.
    rewrite Z.sub_diag. reflexivity.
  - intros ->. rewrite update_bot_week_after by (unfold microseconds_per_day; lia).
    replace (_ + _ - _) with (8 * microseconds_per_day) by lia.
    unfold days. rewrite Z.div_mul by done. reflexivity.
  - intros Hge. by rewrite update_bot_week_after.
Qed.

(** C8, as the code has it.  A recomputation at or after the threshold
    replaces a manual override by the week derived from the clock, whatever
    the override was; a recomputation before the threshold leaves the
    override in place. *)
Theorem override_until_recomputation_after_threshold (week today : Z) (w : world) :
  let after := current_bot_week (exec (forceweek week;; update_bot_week today) w) in
  (WEEK_2_START_DATE w <= today ->
     after = 2 + days (today - WEEK_2_START_DATE w) / 7
     /\ after = current_bot_week (exec (update_bot_week today) w))
  /\ (today < WEEK_2_START_DATE w -> after = week).
Proof.
  cbv zeta. rewrite (exec_bind _ _ _ tt) by done.
  set (w1 := exec (forceweek week) w).
  assert (WEEK_2_START_DATE w1 = WEEK_2_START_DATE w) as HT by done.
  split.
  - intros Hge. rewrite !update_bot_week_after by lia. by rewrite HT.
  - intros Hlt. unfold exec at 1. by rewrite update_bot_week_before by lia.
Qed.

(** ** ValueStore and ValueIngestor *)

Lemma eval_for_ {A} (l : list A) body w :
  (forall x w', eval (body x) w' = Val tt) -> eval (for_ l body) w = Val tt.
Proof.
  intros Hb. revert w. induction l as [|x l IH]; intros w; [done|].
  simpl. rewrite (eval_bind _ _ _ tt) by apply Hb. apply IH.
Qed.

Lemma exec_for_cons {A} (x : A) l body w :
  eval (body x) w = Val tt ->
  exec (for_ (x :: l) body) w = exec (for_ l body) (exec (body x) w).
Proof. intros H. simpl. by rewrite (exec_bind _ _ _ tt). Qed.

Lemma save_loop_players (l : list (string * Z)) w :
  NoDup l.*1 ->
  players (exec (for_ l (fun item => print (SaySaving item.1 item.2);;
                                     upsert item.1 item.2)) w)
  = list_to_map l ∪ players w.
Proof.
  revert w. induction l as [|[name val] l IH]; intros w Hnd.
  - simpl. by rewrite (left_id_L ∅ (∪)).
  - apply NoDup_cons in Hnd as [Hfresh Hnd].
    rewrite exec_for_cons by done. rewrite IH by done. simpl.
    rewrite <- insert_union_l. rewrite insert_union_r; [done|].
    by apply not_elem_of_list_to_map_1.
Qed.

Lemma save_ktc_to_db_players d w :
  players (exec (save_ktc_to_db d) w) = d ∪ players w.
Proof.
  unfold save_ktc_to_db.
  rewrite (exec_bind _ _ _ tt) by (apply eval_for_; done).
  change (players (exec (print SaySavedAll) ?x)) with (players x).
  rewrite save_loop_players by apply NoDup_fst_map_to_list.
  by rewrite list_to_map_to_list.
Qed.

Lemma save_ktc_to_db_returns d w : eval (save_ktc_to_db d) w = Val tt.
Proof.
  unfold save_ktc_to_db.
  rewrite (eval_bind _ _ _ tt) by (apply eval_for_; done). done.
Qed.

Lemma save_ktc_to_db_frame d :
  preserves ktc_values (save_ktc_to_db d)
  /\ preserves ktc_source_used (save_ktc_to_db d)
  /\ preserves known_trade_ids (save_ktc_to_db d)
  /\ preserves current_bot_week (save_ktc_to_db d)
  /\ preserves outbox (save_ktc_to_db d).
Proof. repeat split; unfold save_ktc_to_db, upsert; frame. Qed.

Lemma fetch_dp_values_pure resp w : exec (fetch_dp_values resp) w = w.
Proof.
  unfold fetch_dp_values. destruct resp as [e|status rows]; [done|].
  case_bool_decide; [done|]. by destruct (dict_of_rows rows ∅).
Qed.

Lemma update_ktc_failed resp w e :
  eval (fetch_dp_values resp) w = Exc e ->
  update_ktc resp w = (Val tt, exec (print (SayLoadError e)) w).
Proof.
  intros H. unfold update_ktc, try_except. rewrite run_bind.
  rewrite (run_eta (fetch_dp_values resp)), H, fetch_dp_values_pure. done.
Qed.

Lemma update_ktc_empty resp w :
  eval (fetch_dp_values resp) w = Val ∅ ->
  update_ktc resp w = (Val tt, exec (print SayNoValues) w).
Proof.
  intros H. unfold update_ktc, try_except. rewrite run_bind.
  rewrite (run_eta (fetch_dp_values resp)), H, fetch_dp_values_pure.
  rewrite bool_decide_eq_false_2 by (by intros []). done.
Qed.

Lemma update_ktc_loaded resp w dp :
  eval (fetch_dp_values resp) w = Val dp -> dp ≠ ∅ ->
  eval (update_ktc resp) w = Val tt
  /\ ktc_values (exec (update_ktc resp) w) = dp
  /\ players (exec (update_ktc resp) w) = dp ∪ players w.
Proof.
  intros H Hne. unfold eval, exec, update_ktc, try_except. rewrite run_bind.
  rewrite (run_eta (fetch_dp_values resp)), H, fetch_dp_values_pure.
  rewrite bool_decide_eq_true_2 by done.
  repeat (rewrite run_bind; simpl). rewrite (right_id_L ∅ (∪)).
  set (w1 := World _ dp _ _ _ _ _ _ _ _).
  rewrite (run_eta (save_ktc_to_db dp)), save_ktc_to_db_returns. simpl.
  destruct (save_ktc_to_db_frame dp) as (Hk & _).
  split; [done|]. split.
  - apply (Hk w1).
  - apply (save_ktc_to_db_players dp w1).
Qed.

Lemma update_ktc_label resp : preserves ktc_source_used (update_ktc resp).
Proof.
  unfold update_ktc, fetch_dp_values, save_ktc_to_db, upsert. frame.
Qed.

(** C2.  A refresh never raises.  When the fetch raises, or the parse
    gives no pair, the value table and the [players] table of the store
    are what they were before the call; when the parse gives at least one
    pair, the value table is the parsed pairs. *)
Theorem refresh_all_or_nothing (resp : http_reply) (w : world) :
  let w' := exec (update_ktc resp) w in
  eval (update_ktc resp) w = Val tt
  /\ (forall e, eval (fetch_dp_values resp) w = Exc e ->
        ktc_values w' = ktc_values w /\ players w' = players w)
  /\ (eval (fetch_dp_values resp) w = Val ∅ ->
        ktc_values w' = ktc_values w /\ players w' = players w)
  /\ (forall dp, eval (fetch_dp_values resp) w = Val dp -> dp ≠ ∅ ->
        ktc_values w' = dp).
Proof.
  cbv zeta.
  destruct (eval (fetch_dp_values resp) w) as [dp|e] eqn:Hfetch.
  - destruct (decide (dp = ∅)) as [->|Hne].
    + unfold eval at 1, exec. rewrite update_ktc_empty by done.
      repeat split; try done.
      intros dp [= <-] Hne. done.
    + destruct (update_ktc_loaded resp w dp) as (Hret & Hk & _); [done..|].
      repeat split; try done; try congruence.
  - unfold eval at 1, exec. rewrite (update_ktc_failed _ _ e) by done.
    repeat split; try done.
Qed.

(** C10.  A refresh leaves the module-level label [ktc_source_used] as it
    was, whatever the fetch gave: after any refresh the [ktcsource] command
    reports the label from before it, and from the initial state that is
    ["unknown"]. *)
Theorem refresh_keeps_source_label (resp : http_reply) (w : world) :
  ktc_source_used (exec (update_ktc resp) w) = ktc_source_used w
  /\ eval ktcsource (exec (update_ktc resp) w) = Val (ktc_source_used w)
  /\ forall week2_start db,
       eval ktcsource (exec (update_ktc resp) (initial_world week2_start db))
       = Val "unknown".
Proof.
  pose proof (update_ktc_label resp) as H.
  split; [apply H|]. split.
  - unfold eval, ktcsource. rewrite run_bind. simpl. f_equal. apply H.
  - intros T db. unfold eval, ktcsource. rewrite run_bind. simpl. f_equal.
    apply (H (initial_world T db)).
Qed.

(** ** NameResolver *)

Lemma elem_of_keys (d : gmap string Z) k : k ∈ keys d <-> is_Some (d !! k).
Proof.
  unfold keys. rewrite list_elem_of_fmap. split.
  - intros ([k' v] & -> & Hin). apply elem_of_map_to_list in Hin. eauto.
  - intros [v Hv]. exists (k, v). split; [done|]. by apply elem_of_map_to_list.
Qed.

Lemma NoDup_keys (d : gmap string Z) : NoDup (keys d).
Proof. apply NoDup_fst_map_to_list. Qed.

Lemma insert_desc_elem p l x : x ∈ insert_desc p l <-> x = p \/ x ∈ l.
Proof.
  induction l as [|q l IH]; simpl.
  - rewrite list_elem_of_singleton, elem_of_nil. tauto.
  - destruct (tuple_lt p q); rewrite !elem_of_cons; [rewrite IH|]; tauto.
Qed.

Lemma sorted_elem l x : x ∈ foldr insert_desc [] l <-> x ∈ l.
Proof.
  induction l as [|p l IH]; simpl; [done|].
  rewrite insert_desc_elem, elem_of_cons, IH. tauto.
Qed.

Lemma get_close_matches_elem word possibilities n cutoff best :
  best ∈ get_close_matches word possibilities n cutoff ->
  best ∈ possibilities /\ (cutoff <= ratio best word)%Q.
Proof.
  unfold get_close_matches, nlargest. intros H.
  apply list_elem_of_fmap in H as ([score x] & -> & H).
  apply elem_of_take in H as (i & H & _).
  apply list_elem_of_lookup_2, sorted_elem, list_elem_of_omap in H as (y & Hy & H).
  destruct (Qle_bool cutoff (ratio y word)) eqn:Hle; [|done].
  injection H as <- <-. split; [done|]. by apply Qle_bool_iff.
Qed.

(** Among distinct possibilities of which one alone reaches the cutoff,
    [get_close_matches] returns that one; where none does, nothing. *)
Lemma get_close_matches_single word possibilities cutoff key :
  NoDup possibilities -> key ∈ possibilities ->
  (cutoff <= ratio key word)%Q ->
  (forall other, other ∈ possibilities -> other ≠ key ->
                 (ratio other word < cutoff)%Q) ->
  get_close_matches word possibilities 1 cutoff = [key].
Proof.
  intros Hnd Hin Hkey Hothers. unfold get_close_matches, nlargest.
  assert (omap (fun x => if Qle_bool cutoff (ratio x word)
                         then Some (ratio x word, x) else None) possibilities
          = [(ratio key word, key)]) as ->; [|done].
  induction possibilities as [|x l IH]; [by apply elem_of_nil in Hin|].
  apply NoDup_cons in Hnd as [Hx Hnd]. simpl.
  assert (forall l', (forall y, y ∈ l' -> (ratio y word < cutoff)%Q) ->
            omap (fun x => if Qle_bool cutoff (ratio x word)
                           then Some (ratio x word, x) else None) l' = []) as Hnone.
  { clear. intros l' H. induction l' as [|y l' IH]; [done|]. simpl.
    destruct (Qle_bool cutoff (ratio y word)) eqn:Hle.
    - apply Qle_bool_iff in Hle. specialize (H y ltac:(left)).
      by apply Qlt_not_le in H.
    - apply IH. intros z Hz. apply H. by right. }
  destruct (decide (x = key)) as [->|Hne].
  - apply Qle_bool_iff in Hkey. rewrite Hkey. f_equal.
    apply Hnone. intros y Hy. apply Hothers; [by right|].
    intros ->. done.
  - assert (ratio x word < cutoff)%Q as Hlt by (apply Hothers; [by left|done]).
    destruct (Qle_bool cutoff (ratio x word)) eqn:Hle.
    { apply Qle_bool_iff in Hle. by apply Qlt_not_le in Hlt. }
    apply IH; [done| |].
    + apply elem_of_cons in Hin as [->|Hin]; done.
    + intros other Ho. apply Hothers. by right.
Qed.

Lemma get_close_matches_none word possibilities n cutoff :
  (forall x, x ∈ possibilities -> (ratio x word < cutoff)%Q) ->
  get_close_matches word possibilities n cutoff = [].
Proof.
  intros H. destruct (get_close_matches word possibilities n cutoff) as [|best l] eqn:E;
    [done|].
  destruct (get_close_matches_elem word possibilities n cutoff best) as [Hin Hle].
  { rewrite E. by left. }
  apply H in Hin. by apply Qlt_not_le in Hin.
Qed.

(** *** The order of the keys does not matter

    The table enumerates its keys in an order of its own, a dict in the
    order of insertion.  The best match is the greatest tuple
    [(score, key)], which no order of enumeration changes. *)

Lemma string_ltb_irrefl s : String.ltb s s = false.
Proof.
  unfold String.ltb. pose proof (String.compare_antisym s s) as H.
  by destruct (String.compare s s).
Qed.

Lemma string_ltb_asym s t : String.ltb s t = true -> String.ltb t s = false.
Proof.
  unfold String.ltb. rewrite (String.compare_antisym s t).
  by destruct (String.compare t s).
Qed.

Lemma string_ltb_false s t : String.ltb s t = false <-> String.leb t s = true.
Proof.
  unfold String.ltb, String.leb. rewrite (String.compare_antisym t s).
  destruct (String.compare s t); simpl; split; congruence.
Qed.

Lemma string_geb_trans s t u :
  String.ltb s t = false -> String.ltb t u = false -> String.ltb s u = false.
Proof.
  rewrite !string_ltb_false. intros H1 H2.
  apply Is_true_true. apply Is_true_true in H1, H2.
  change (String.le u s). by trans t.
Qed.

Lemma tuple_lt_irrefl p : tuple_lt p p = false.
Proof.
  unfold tuple_lt.
  rewrite (proj1 (Qeq_alt p.1 p.1) (Qeq_refl _)). apply string_ltb_irrefl.
Qed.

Lemma tuple_lt_asym p q : tuple_lt p q = true -> tuple_lt q p = false.
Proof.
  unfold tuple_lt. rewrite <- (Qcompare_antisym p.1 q.1).
  destruct (p.1 ?= q.1)%Q; simpl; [apply string_ltb_asym|done..].
Qed.

Lemma tuple_ge_trans a b c :
  tuple_lt a b = false -> tuple_lt b c = false -> tuple_lt a c = false.
Proof.
  unfold tuple_lt.
  destruct (Qcompare_spec a.1 b.1) as [Hab|Hab|Hab]; [|done|];
    (destruct (Qcompare_spec b.1 c.1) as [Hbc|Hbc|Hbc]; [|done|]);
    intros H1 H2.
  - rewrite (proj1 (Qeq_alt a.1 c.1)) by (by rewrite Hab).
    by apply (string_geb_trans _ b.2).
  - by rewrite (proj1 (Qgt_alt a.1 c.1)) by (by rewrite Hab).
  - by rewrite (proj1 (Qgt_alt a.1 c.1)) by (by rewrite <- Hbc).
  - by rewrite (proj1 (Qgt_alt a.1 c.1)) by (by apply (Qlt_trans _ b.1)).
Qed.

Lemma tuple_lt_total p q :
  tuple_lt p q = false -> tuple_lt q p = false -> p.2 = q.2.
Proof.
  unfold tuple_lt. rewrite <- (Qcompare_antisym p.1 q.1).
  destruct (p.1 ?= q.1)%Q; simpl; [|done..].
  rewrite !string_ltb_false. intros H1 H2. by apply String.leb_antisym.
Qed.

(** The head of the sorted list is a greatest element. *)
Lemma sorted_head l h t :
  foldr insert_desc [] l = h :: t ->
  h ∈ l /\ forall y, y ∈ l -> tuple_lt h y = false.
Proof.
  revert h t. induction l as [|p l IH]; intros h t; simpl; [done|].
  destruct (foldr insert_desc [] l) as [|h0 t0] eqn:Hsorted; simpl.
  - intros [= <- <-]. split; [by left|]. intros y Hy.
    apply elem_of_cons in Hy as [->|Hy]; [apply tuple_lt_irrefl|].
    apply sorted_elem in Hy. rewrite Hsorted in Hy. by apply elem_of_nil in Hy.
  - destruct (IH h0 t0 eq_refl) as [Hin Hmax].
    destruct (tuple_lt p h0) eqn:Hlt; intros [= <- <-].
    + split; [by right|]. intros y Hy.
      apply elem_of_cons in Hy as [->|Hy]; [by apply tuple_lt_asym|by apply Hmax].
    + split; [by left|]. intros y Hy.
      apply elem_of_cons in Hy as [->|Hy]; [apply tuple_lt_irrefl|].
      apply (tuple_ge_trans _ h0); [done|by apply Hmax].
Qed.

Lemma nlargest_perm l l' : l ≡ₚ l' -> (nlargest 1 l).*2 = (nlargest 1 l').*2.
Proof.
  intros Hperm. unfold nlargest.
  destruct (foldr insert_desc [] l) as [|h t] eqn:Hl;
    destruct (foldr insert_desc [] l') as [|h' t'] eqn:Hl'; simpl; [done|..].
  - assert (h' ∈ l) as Hin.
    { rewrite Hperm. apply sorted_elem. rewrite Hl'. by left. }
    apply sorted_elem in Hin. rewrite Hl in Hin. by apply elem_of_nil in Hin.
  - assert (h ∈ l') as Hin.
    { rewrite <- Hperm. apply sorted_elem. rewrite Hl. by left. }
    apply sorted_elem in Hin. rewrite Hl' in Hin. by apply elem_of_nil in Hin.
  - apply sorted_head in Hl as [Hin Hmax], Hl' as [Hin' Hmax'].
    f_equal. apply tuple_lt_total.
    + apply Hmax. by rewrite Hperm.
    + apply Hmax'. by rewrite <- Hperm.
Qed.

Lemma get_close_matches_perm word possibilities possibilities' cutoff :
  possibilities ≡ₚ possibilities' ->
  get_close_matches word possibilities 1 cutoff
  = get_close_matches word possibilities' 1 cutoff.
Proof.
  intros Hperm. unfold get_close_matches. apply nlargest_perm.
  by apply omap_Permutation.
Qed.

Lemma find_similar_names_in_db_returns query w :
  eval (find_similar_names_in_db query) w = Val tt.
Proof.
  unfold find_similar_names_in_db.
  repeat (rewrite (eval_bind _ _ _ tt) by done || rewrite (eval_bind _ _ _ w) by done).
  by apply eval_for_.
Qed.

Lemma find_similar_names_in_db_frame query :
  preserves ktc_values (find_similar_names_in_db query)
  /\ preserves players (find_similar_names_in_db query)
  /\ preserves known_trade_ids (find_similar_names_in_db query)
  /\ preserves outbox (find_similar_names_in_db query).
Proof. repeat split; unfold find_similar_names_in_db; frame. Qed.

(** [get_ktc_value] returns, and what it returns is [resolve] of the table. *)
Lemma get_ktc_value_resolve player_name w :
  eval (get_ktc_value player_name) w = Val (resolve (ktc_values w) player_name).
Proof.
  unfold eval, get_ktc_value, resolve.
  destruct (manual_ktc_overrides !! strip player_name) as [canonical|]; simpl;
    repeat (rewrite run_bind; simpl);
    (destruct (ktc_values w !! _) as [value|] eqn:Hexact; [done|]);
    (destruct (get_close_matches _ _ _ _) as [|best rest] eqn:Hclose);
    repeat (rewrite run_bind; simpl).
  1,3: by rewrite (run_eta (find_similar_names_in_db _)),
            find_similar_names_in_db_returns.
  all: assert (best ∈ best :: rest) as Hin by (by left);
    rewrite <- Hclose in Hin; apply get_close_matches_elem in Hin as [Hin _];
    apply elem_of_keys in Hin as [value Hvalue]; by rewrite Hvalue.
Qed.

Lemma get_ktc_value_frame player_name :
  preserves ktc_values (get_ktc_value player_name)
  /\ preserves players (get_ktc_value player_name)
  /\ preserves known_trade_ids (get_ktc_value player_name)
  /\ preserves outbox (get_ktc_value player_name)
  /\ preserves ktc_source_used (get_ktc_value player_name)
  /\ preserves user_map (get_ktc_value player_name)
  /\ preserves current_bot_week (get_ktc_value player_name)
  /\ preserves WEEK_2_START_DATE (get_ktc_value player_name)
  /\ preserves discord_calls (get_ktc_value player_name).
Proof.
  repeat split; unfold get_ktc_value, find_similar_names_in_db; frame.
Qed.

Lemma override_canonical alias canonical :
  manual_ktc_overrides !! alias = Some canonical ->
  strip canonical = canonical /\ manual_ktc_overrides !! canonical = None.
Proof.
  intros H. apply elem_of_list_to_map_2 in H.
  repeat (apply elem_of_cons in H as [[= -> ->]|H]; [by vm_compute|]).
  by apply elem_of_nil in H.
Qed.

(** C3, as the code has it.  An input that is a key of the override table
    resolves as its canonical form does, whatever the table holds under
    the input itself; when the canonical form is a key of the value table,
    the result is its value and the canonical form. *)
Theorem override_precedence (player_name canonical : string) (w : world) :
  manual_ktc_overrides !! strip player_name = Some canonical ->
  eval (get_ktc_value player_name) w = eval (get_ktc_value canonical) w
  /\ forall value, ktc_values w !! canonical = Some value ->
       eval (get_ktc_value player_name) w = Val (value, Some canonical).
Proof.
  intros H. rewrite !get_ktc_value_resolve. unfold resolve.
  destruct (override_canonical _ _ H) as [-> ->]. rewrite H. simpl.
  split; [done|]. by intros value ->.
Qed.

(** C4.  For a name with no override and no exact match: when one key of
    the table has similarity exactly 0.5 to it and every other key has
    less, the result is that key and its value; when every key has less
    than 0.5, the result is [(0, None)], returned and not raised. *)
Theorem fuzzy_threshold_boundary (player_name : string) (w : world) :
  let name_input := strip player_name in
  manual_ktc_overrides !! name_input = None ->
  ktc_values w !! name_input = None ->
  (forall key value,
      ktc_values w !! key = Some value ->
      (ratio key name_input == 1 # 2)%Q ->
      (forall other, is_Some (ktc_values w !! other) -> other ≠ key ->
                     (ratio other name_input < 1 # 2)%Q) ->
      eval (get_ktc_value player_name) w = Val (value, Some key))
  /\ ((forall key, is_Some (ktc_values w !! key) ->
                   (ratio key name_input < 1 # 2)%Q) ->
      eval (get_ktc_value player_name) w = Val (0, None)).
Proof.
  intros name_input Hover Hexact. rewrite get_ktc_value_resolve. unfold resolve.
  fold name_input. rewrite Hover. simpl. rewrite Hexact. split.
  - intros key value Hkey Hratio Hothers.
    rewrite (get_close_matches_single _ _ _ key).
    + by rewrite Hkey.
    + apply NoDup_keys.
    + apply elem_of_keys. eauto.
    + rewrite Hratio. apply Qle_refl.
    + intros other Hin. apply Hothers. by apply elem_of_keys.
  - intros Hall. rewrite get_close_matches_none; [done|].
    intros x Hin. apply Hall. by apply elem_of_keys.
Qed.

(** C9.  With the value table unchanged, [get_ktc_value] returns the same
    pair for the same name: its result depends on the table and the name
    alone, and a second call returns what the first did.  The call leaves
    the value table, the store and the set of known trades as they were.
    On a full miss, where the substring lookup in the store runs, the
    result is [(0, None)] whatever the store holds. *)
Theorem resolve_is_deterministic (player_name : string) (w : world) :
  (forall w2, ktc_values w2 = ktc_values w ->
     eval (get_ktc_value player_name) w2 = eval (get_ktc_value player_name) w)
  /\ eval (get_ktc_value player_name) (exec (get_ktc_value player_name) w)
     = eval (get_ktc_value player_name) w
  /\ (ktc_values (exec (get_ktc_value player_name) w) = ktc_values w
      /\ players (exec (get_ktc_value player_name) w) = players w
      /\ known_trade_ids (exec (get_ktc_value player_name) w) = known_trade_ids w)
  /\ (let name_input := default (strip player_name)
                           (manual_ktc_overrides !! strip player_name) in
      ktc_values w !! name_input = None ->
      get_close_matches name_input (keys (ktc_values w)) 1 (1 # 2) = [] ->
      forall db,
        eval (get_ktc_value player_name) (exec (set_players db) w) = Val (0, None)).
Proof.
  destruct (get_ktc_value_frame player_name) as (Hk & Hp & Hknown & _).
  split; [|split; [|split]].
  - intros w2 Hw2. by rewrite !get_ktc_value_resolve, Hw2.
  - by rewrite !get_ktc_value_resolve, Hk.
  - by rewrite Hk, Hp, Hknown.
  - intros name_input Hexact Hclose db.
    rewrite get_ktc_value_resolve. simpl. unfold resolve. fold name_input.
    by rewrite Hexact, Hclose.
Qed.

(** ** TradeWatcher *)

Lemma leads_bind {A B} P Q (m : M A) (f : A -> M B) :
  leads P m P -> (forall w, P w -> Q w) -> (forall a, leads P (f a) Q) ->
  leads P (m ≫= f) Q.
Proof.
  intros Hm HPQ Hf w HP. unfold exec. rewrite run_bind.
  specialize (Hm w HP). unfold exec in Hm.
  destruct (m w) as [[a|e] w1]; simpl in *; [|by apply HPQ].
  by apply Hf.
Qed.

Lemma leads_get {B} P Q (f : world -> M B) :
  (forall w0, P w0 -> leads (fun w => w = w0) (f w0) Q) -> leads P (get ≫= f) Q.
Proof. intros Hf w HP. unfold exec. rewrite run_bind. simpl. by apply (Hf w). Qed.

Lemma leads_weaken {A} (P P' Q : world -> Prop) (m : M A) :
  (forall w, P w -> P' w) -> leads P' m Q -> leads P m Q.
Proof. intros HP Hm w Hw. by apply Hm, HP. Qed.

Lemma leads_stay {A} (P Q : world -> Prop) (a : A) :
  (forall w, P w -> Q w) -> leads P (mret a) Q.
Proof. intros H w Hw. by apply H. Qed.

Lemma leads_raise {A} (P Q : world -> Prop) e :
  (forall w, P w -> Q w) -> leads P (raise (A:=A) e) Q.
Proof. intros H w Hw. by apply H. Qed.

Lemma leads_frame {A} I (m : M A) :
  preserves known_trade_ids m -> preserves outbox m ->
  leads (on_trades I) m (on_trades I).
Proof. intros Hk Ho w. unfold on_trades. by rewrite Hk, Ho. Qed.

Lemma leads_for_each {A} P (l : list A) body :
  (forall x, x ∈ l -> leads P (body x) P) -> leads P (for_each l body) P.
Proof.
  induction l as [|x l IH]; intros Hb; simpl.
  - by apply leads_stay.
  - apply leads_bind; [apply Hb; by left|done|].
    intros [|]; [|by apply leads_stay].
    apply IH. intros y Hy. apply Hb. by right.
Qed.

Lemma reverse_of_frame {B} (field : world -> B) items acc :
  preserves field (reverse_of items acc).
Proof.
  revert acc. induction items as [|[pid rid] items IH]; intros acc; simpl.
  - apply preserves_ret.
  - unfold hashed. frame; try apply IH.
Qed.

Lemma name_map_of_frame {B} (field : world -> B) items acc :
  preserves field (name_map_of items acc).
Proof.
  revert acc. induction items as [|[pid pdata] items IH]; intros acc; simpl.
  - apply preserves_ret.
  - unfold has_full_name, full_name. frame; try apply IH.
Qed.

Lemma join_frame {B} (field : world -> B) names : preserves field (join names).
Proof.
  induction names as [|n names IH]; simpl.
  - apply preserves_ret.
  - destruct n; frame; try apply IH.
Qed.

Lemma sum_values_frame names acc :
  preserves known_trade_ids (sum_values names acc)
  /\ preserves outbox (sum_values names acc).
Proof.
  revert acc. induction names as [|n names IH]; intros acc; simpl.
  - split; apply preserves_ret.
  - split; (apply preserves_bind; [|intros ?; apply IH]);
      unfold get_ktc_value_of; destruct n; try apply preserves_raise;
      (apply preserves_bind; [apply get_ktc_value_frame|intros ?; apply preserves_ret]).
Qed.

(** The end of the loop body, from [channel.send] on: one message more,
    and no known id fewer. *)
Lemma emit_run tid e outcome k w :
  outcome ≠ NoChannel ->
  let block :=
    try_except
      (channel_send tid e outcome;;
       w ← get;
       set_known_trade_ids ({[k]} ∪ known_trade_ids w);;
       print (SaySent tid))
      (fun e =>
         match e with
         | Forbidden => print SayNoPermission
         | _ => print (SaySendFailed e)
         end);;
    mret Continue in
  known_trade_ids w ⊆ known_trade_ids (exec block w)
  /\ outbox (exec block w) = outbox w ++ [Delivery tid e outcome].
Proof.
  intros Hout. destruct outcome as [|ex|ex|]; [done|..];
    try (destruct ex; by split);
    split; [|done]; simpl; apply union_subseteq_r.
Qed.

Lemma leads_ret_bind {A B} P Q (a : A) (f : A -> M B) :
  leads P (f a) Q -> leads P (mret a ≫= f) Q.
Proof. done. Qed.

Lemma leads_raise_bind {A B} (P Q : world -> Prop) e (f : A -> M B) :
  (forall w, P w -> Q w) -> leads P (raise e ≫= f) Q.
Proof. intros H w Hw. by apply H. Qed.

Lemma is_str_eq s x : is_str s x = true -> x = JStr s.
Proof. destruct x; try done. simpl. by intros ->%String.eqb_eq. Qed.

(** One transaction of the feed keeps the invariant of the cycle. *)
Lemma announce_inv discord name_map txn known sent txns :
  txn ∈ txns ->
  leads (on_trades (cycle_inv known sent txns)) (announce discord name_map txn)
        (on_trades (cycle_inv known sent txns)).
Proof.
  intros Hin. set (P := on_trades (cycle_inv known sent txns)).
  destruct txn as [| | | |fields]; try (by apply leads_raise_bind).
  unfold announce, dict_get.
  set (tid := default JNull (assoc "transaction_id" fields)).
  set (ttype := default JNull (assoc "type" fields)).
  set (tstatus := default JNull (assoc "status" fields)).
  do 3 apply leads_ret_bind.
  apply leads_bind; [by apply leads_frame|done|]; intros _.
  destruct (negb (is_str "trade" ttype) || negb (is_str "complete" tstatus))
    eqn:Hq; [by apply leads_stay|].
  apply orb_false_elim in Hq as [Htype%negb_false_iff%is_str_eq
                                 Hstatus%negb_false_iff%is_str_eq].
  unfold hashed. destruct (hash tid) as [k|] eqn:Hk; [|by apply leads_raise_bind].
  apply leads_ret_bind, leads_get. intros w0 HP0.
  case_bool_decide as Hnew; [apply leads_stay; by intros ? ->|].
  (* from here on the id is new, and stays so until it is added *)
  set (P1 := on_trades (fun known' sent' =>
                          cycle_inv known sent txns known' sent' /\ k ∉ known')).
  assert (forall w, P1 w -> P w) as HP1 by (by intros w []).
  apply (leads_weaken _ P1); [by intros ? ->|]. clear w0 HP0 Hnew.
  apply leads_ret_bind. unfold dict_items.
  destruct (default (JObj []) (assoc "adds" fields)) as [| | | |items];
    try (by apply leads_raise_bind).
  apply leads_ret_bind.
  apply leads_bind; [apply leads_frame; apply reverse_of_frame|done|].
  intros reverse. apply leads_ret_bind. unfold slice2.
  assert (forall rosters : list json,
    leads P1
      (mret rosters ≫= fun rosters =>
       match rosters with
       | r0 :: r1 :: _ =>
         k0 ← hashed r0;
         let t0_ids := default [] (reverse !! k0) in
         k1 ← hashed r1;
         let t1_ids := default [] (reverse !! k1) in
         let t0_names := map (fun pid => default (JStr pid) (name_map !! pid)) t0_ids in
         let t1_names := map (fun pid => default (JStr pid) (name_map !! pid)) t1_ids in
         v0 ← sum_values t0_names 0;
         v1 ← sum_values t1_names 0;
         w ← get;
         let team0 := default ("Team " +:+ py_str k0) (user_map w !! k0) in
         let team1 := default ("Team " +:+ py_str k1) (user_map w !! k1) in
         gets0 ← join t0_names;
         gets1 ← join t1_names;
         let embed :=
           Embed team0 (if String.eqb gets0 "" then "None" else gets0)
                 team1 (if String.eqb gets1 "" then "None" else gets1)
                 v0 v1 (result_text team0 team1 v0 v1) in
         outcome ← consult discord;
         match outcome with
         | NoChannel => print SayNoChannel;; mret Return
         | _ =>
           try_except
             (channel_send tid embed outcome;;
              w ← get;
              set_known_trade_ids ({[k]} ∪ known_trade_ids w);;
              print (SaySent tid))
             (fun e =>
                match e with
                | Forbidden => print SayNoPermission
                | _ => print (SaySendFailed e)
                end);;
           mret Continue
         end
       | _ => print (SayNotEnough tid);; mret Continue
       end) P) as Hrest.
  { intros rosters. apply leads_ret_bind.
    assert (leads P1 (print (SayNotEnough tid);; mret Continue) P) as Hshort.
    { apply leads_bind; [by apply leads_frame|done|].
      intros _. by apply leads_stay. }
    destruct rosters as [|r0 [|r1 rosters]]; [done..|].
    unfold hashed.
    destruct (hash r0) as [k0|]; [apply leads_ret_bind|by apply leads_raise_bind].
    cbv zeta.
    destruct (hash r1) as [k1|]; [apply leads_ret_bind|by apply leads_raise_bind].
    apply leads_bind; [apply leads_frame; apply sum_values_frame|done|]; intros v0.
    apply leads_bind; [apply leads_frame; apply sum_values_frame|done|]; intros v1.
    apply leads_get. intros w1 Hw1. apply (leads_weaken _ P1); [by intros ? ->|].
    apply leads_bind; [apply leads_frame; apply join_frame|done|]; intros gets0.
    apply leads_bind; [apply leads_frame; apply join_frame|done|]; intros gets1.
    apply leads_bind; [by apply leads_frame|done|]; intros outcome.
    assert (outcome = NoChannel \/ outcome ≠ NoChannel) as [->|Hout]
      by (destruct outcome; auto).
    { apply leads_bind; [by apply leads_frame|done|].
      intros _. by apply leads_stay. }
    match goal with
    | |- leads _ ?m _ =>
      assert (leads P1
        (try_except
           (channel_send tid
              (Embed (default ("Team " +:+ py_str k0) (user_map w1 !! k0))
                     (if String.eqb gets0 "" then "None" else gets0)
                     (default ("Team " +:+ py_str k1) (user_map w1 !! k1))
                     (if String.eqb gets1 "" then "None" else gets1)
                     v0 v1
                     (result_text (default ("Team " +:+ py_str k0) (user_map w1 !! k0))
                                  (default ("Team " +:+ py_str k1) (user_map w1 !! k1))
                                  v0 v1))
              outcome;;
            w ← get;
            set_known_trade_ids ({[k]} ∪ known_trade_ids w);;
            print (SaySent tid))
           (fun e =>
              match e with
              | Forbidden => print SayNoPermission
              | _ => print (SaySendFailed e)
              end);;
         mret Continue) P) as Hemit
    end.
    { intros w [[Hsub (new & Hsent & Hnew)] Hfresh].
      edestruct (emit_run tid) as [Hk' Ho']; [exact Hout|].
      unfold P, on_trades, cycle_inv. rewrite Ho'. split.
      - etrans; [exact Hsub|exact Hk'].
      - eexists (new ++ [_]). split; [by rewrite Hsent, (assoc_L (++))|].
        apply Forall_app. split; [done|]. apply Forall_singleton.
        split; [|done]. exists (JObj fields), k. simpl. fold tid ttype tstatus.
        repeat split; try done.
        intros Hbad. apply Hfresh. by apply Hsub. }
    by destruct outcome. }
  destruct (default (JArr []) (assoc "roster_ids" fields)) as [| | | |];
    solve [by apply leads_raise_bind | apply Hrest].
Qed.

Lemma cycle_inv_start known sent txns : cycle_inv known sent txns known sent.
Proof.
  split; [done|]. exists []. split; [by rewrite (right_id_L [] (++))|].
  apply Forall_nil_2.
Qed.

Lemma cycle_rest discord transactions player_data current_week known sent :
  let P := on_trades (cycle_inv known sent (default [] (elements_of transactions))) in
  leads P
    (n ← py_len transactions;
     print (SayFetched n current_week);;
     name_map ← get_player_name_map player_data;
     txns ← py_iter transactions;
     for_each txns (announce discord name_map)) P.
Proof.
  intros P.
  apply leads_bind; [apply leads_frame; destruct transactions; by intros ?|done|].
  intros n. apply leads_bind; [by apply leads_frame|done|]. intros _.
  apply leads_bind; [|done|].
  { unfold get_player_name_map, dict_items.
    apply leads_frame; frame; apply name_map_of_frame. }
  intros name_map. unfold py_iter.
  destruct (elements_of transactions) as [txns|] eqn:Hel;
    [apply leads_ret_bind|by apply leads_raise_bind].
  apply leads_for_each. intros txn Hin. by apply announce_inv.
Qed.

(** A poll cycle, however it ends, has sent only messages accounted for by
    the feed, and has dropped no known id. *)
Lemma poll_cycle_inv api discord week_override w :
  on_trades (cycle_inv (known_trade_ids w) (outbox w) (feed api week_override w))
            (exec (fetch_and_announce_trades api discord week_override) w).
Proof.
  unfold fetch_and_announce_trades, exec, feed.
  rewrite run_bind. simpl. rewrite run_bind. simpl.
  set (w1 := World _ _ _ _ _ _ _ _ _ _).
  change (current_week_of week_override w1) with (current_week_of week_override w).
  rewrite run_bind.
  destruct (get_transactions api (current_week_of week_override w))
    as [transactions|e]; [|apply cycle_inv_start]. simpl.
  rewrite run_bind.
  destruct (get_players api) as [player_data|e]; [|apply cycle_inv_start]. simpl.
  apply (cycle_rest discord transactions player_data
           (current_week_of week_override w) (known_trade_ids w) (outbox w) w1).
  apply cycle_inv_start.
Qed.

Lemma is_str_ne s x : x ≠ JStr s -> is_str s x = false.
Proof.
  intros H. destruct x; try done. simpl. apply String.eqb_neq. congruence.
Qed.

(** A transaction that is no completed trade, or whose id is known, is
    passed over: one line printed, the loop goes on. *)
Lemma announce_skips discord name_map fields w :
  let txn := JObj fields in
  txn_field "type" txn ≠ JStr "trade"
  \/ txn_field "status" txn ≠ JStr "complete"
  \/ (exists k, hash (txn_field "transaction_id" txn) = Some k
                /\ k ∈ known_trade_ids w) ->
  announce discord name_map txn w
  = (Val Continue,
     exec (print (SayTxn (txn_field "transaction_id" txn) (txn_field "type" txn)
                         (txn_field "status" txn))) w).
Proof.
  intros txn H. unfold announce, txn, dict_get. simpl txn_field in *.
  set (tid := default JNull (assoc "transaction_id" fields)) in *.
  set (ttype := default JNull (assoc "type" fields)) in *.
  set (tstatus := default JNull (assoc "status" fields)) in *.
  repeat (rewrite run_bind; simpl).
  destruct (is_str "trade" ttype) eqn:Htype; simpl.
  2: done.
  destruct (is_str "complete" tstatus) eqn:Hstatus; simpl.
  2: done.
  apply is_str_eq in Htype, Hstatus.
  destruct H as [H|[H|(k & Hk & Hknown)]]; [done..|].
  unfold hashed. rewrite Hk. repeat (rewrite run_bind; simpl).
  by rewrite bool_decide_eq_true_2.
Qed.

Lemma result_text_spec team0 team1 v0 v1 :
  let diff := v0 - v1 in
  (Z.abs diff < 200 -> result_text team0 team1 v0 v1 = FairTrade)
  /\ (200 <= Z.abs diff -> v1 < v0 ->
      result_text team0 team1 v0 v1 = WinsBy team0 (Z.abs diff))
  /\ (200 <= Z.abs diff -> v0 < v1 ->
      result_text team0 team1 v0 v1 = WinsBy team1 (Z.abs diff)).
Proof.
  intros diff. unfold result_text. fold diff. repeat split.
  - intros H. by rewrite bool_decide_eq_true_2.
  - intros H Hlt. rewrite bool_decide_eq_false_2 by lia.
    rewrite bool_decide_eq_true_2 by (unfold diff; lia). done.
  - intros H Hlt. rewrite bool_decide_eq_false_2 by lia.
    rewrite bool_decide_eq_false_2 by (unfold diff; lia). done.
Qed.

(** C1.  A poll cycle, however it ends, keeps every known id known, and
    each message it sends comes from a transaction of the feed whose type
    is ["trade"], whose status is ["complete"] and whose id was not known:
    no message bears the id of a transaction whose id was known.  In the
    loop, a transaction whose type is not ["trade"], whose status is not
    ["complete"] or whose id is known is passed over without raising, and
    leaves the known ids and the messages as they were. *)
Theorem known_or_unqualified_is_skipped api discord week_override w :
  let w' := exec (fetch_and_announce_trades api discord week_override) w in
  known_trade_ids w ⊆ known_trade_ids w'
  /\ (exists new,
        outbox w' = outbox w ++ new
        /\ (forall d, d ∈ new ->
              exists txn, txn ∈ feed api week_override w
                /\ sent_tid d = txn_field "transaction_id" txn
                /\ txn_field "type" txn = JStr "trade"
                /\ txn_field "status" txn = JStr "complete")
        /\ (forall txn k, txn ∈ feed api week_override w ->
              hash (txn_field "transaction_id" txn) = Some k ->
              k ∈ known_trade_ids w ->
              forall d, d ∈ new -> sent_tid d ≠ txn_field "transaction_id" txn))
  /\ (forall name_map fields w1,
        let txn := JObj fields in
        txn_field "type" txn ≠ JStr "trade"
        \/ txn_field "status" txn ≠ JStr "complete"
        \/ (exists k, hash (txn_field "transaction_id" txn) = Some k
                      /\ k ∈ known_trade_ids w1) ->
        eval (announce discord name_map txn) w1 = Val Continue
        /\ known_trade_ids (exec (announce discord name_map txn) w1)
           = known_trade_ids w1
        /\ outbox (exec (announce discord name_map txn) w1) = outbox w1).
Proof.
  intros w'. destruct (poll_cycle_inv api discord week_override w)
    as [Hsub (new & Hsent & Hnew)].
  fold w' in Hsub, Hsent. rewrite Forall_forall in Hnew.
  split; [done|]. split.
  - exists new. split; [done|]. split.
    + intros d Hd. destruct (Hnew d Hd) as [(txn & k & ? & ? & ? & ? & ? & ?) _].
      by exists txn.
    + intros txn k Hin Hk Hknown d Hd Heq.
      destruct (Hnew d Hd) as [(txn' & k' & _ & _ & _ & _ & Hk' & Hfresh) _].
      rewrite Heq, Hk in Hk'. by injection Hk' as <-.
  - intros name_map fields w1 txn H. subst txn. unfold eval, exec.
    by rewrite (announce_skips discord name_map fields w1 H).
Qed.

(** C6.  Every message of a poll cycle carries the verdict of the two
    totals it shows: with [diff] the first total minus the second, a fair
    trade when [|diff| < 200], and otherwise a win by [|diff|] of the team
    with the larger total.  Totals 1000 and 850 give a fair trade, 1000 and
    700 a win of the first team by 300. *)
Theorem fairness_verdict api discord week_override w :
  let w' := exec (fetch_and_announce_trades api discord week_override) w in
  (exists new,
     outbox w' = outbox w ++ new
     /\ forall d, d ∈ new ->
         let e := sent_embed d in
         let diff := embed_v0 e - embed_v1 e in
         (Z.abs diff < 200 -> footer e = FairTrade)
         /\ (200 <= Z.abs diff -> embed_v1 e < embed_v0 e ->
             footer e = WinsBy (embed_team0 e) (Z.abs diff))
         /\ (200 <= Z.abs diff -> embed_v0 e < embed_v1 e ->
             footer e = WinsBy (embed_team1 e) (Z.abs diff)))
  /\ (forall team0 team1,
        result_text team0 team1 1000 850 = FairTrade
        /\ result_text team0 team1 1000 700 = WinsBy team0 300).
Proof.
  intros w'. destruct (poll_cycle_inv api discord week_override w)
    as [_ (new & Hsent & Hnew)].
  fold w' in Hsent. rewrite Forall_forall in Hnew. split; [|done].
  exists new. split; [done|]. intros d Hd e diff.
  destruct (Hnew d Hd) as [_ Hfooter]. fold e in Hfooter. rewrite Hfooter.
  apply result_text_spec.
Qed.

End Properties.


(** ** The theorems at work on the sample data *)

Import Sample.

Lemma week_derivation_witness :
  current_bot_week (exec (update_bot_week (week2_start - 1000000)) league) = 1
  /\ current_bot_week (exec (update_bot_week week2_start) league) = 2
  /\ current_bot_week
       (exec (update_bot_week (week2_start + 8 * microseconds_per_day)) league) = 3.
Proof.
  split; [|split].
  - destruct (week_derivation week2_start (week2_start - 1000000) league eq_refl)
      as (H & _).
    apply H; [unfold week2_start; lia | reflexivity].
  - destruct (week_derivation week2_start week2_start league eq_refl)
      as (_ & H & _).
    apply H. reflexivity.
  - destruct (week_derivation week2_start
                (week2_start + 8 * microseconds_per_day) league eq_refl)
      as (_ & _ & H & _).
    apply H. reflexivity.
Defined.

Lemma override_until_recomputation_after_threshold_witness :
  current_bot_week
    (exec (forceweek 7;; update_bot_week (week2_start + 8 * microseconds_per_day))
          league) = 3
  /\ current_bot_week
       (exec (forceweek 7;; update_bot_week (week2_start - 1000000)) league) = 7.
Proof.
  split.
  - destruct (override_until_recomputation_after_threshold
                7 (week2_start + 8 * microseconds_per_day) league) as [H _].
    destruct H as [H _]; [vm_compute; discriminate|].
    rewrite H. reflexivity.
  - destruct (override_until_recomputation_after_threshold
                7 (week2_start - 1000000) league) as [_ H].
    apply H. vm_compute. reflexivity.
Defined.

(** C8, as the claim states it, fails one day after start-up: the threshold
    is two days after the midnight before start-up, the recomputation a day
    later comes before it, and the override 7 stays where the clock alone
    gives week 1. *)
Lemma override_persists_before_threshold :
  week2_start_at_ready started = week2_start
  /\ current_bot_week (exec (forceweek 7;; update_bot_week next_day) league) = 7
  /\ current_bot_week (exec (update_bot_week next_day) league) = 1.
Proof. vm_compute. repeat split. Qed.

Lemma refresh_all_or_nothing_witness :
  ktc_values (exec (update_ktc (ext:=Reference.externals)
                               (GetRaised RequestException)) league) = table
  /\ players (exec (update_ktc (ext:=Reference.externals)
                               (GetRaised RequestException)) league) = table
  /\ ktc_values (exec (update_ktc (ext:=Reference.externals)
                                  (Response 200 [])) league) = table
  /\ ktc_values (exec (update_ktc (ext:=Reference.externals)
                                  (Response 200 csv_rows)) league)
     = {["Bijan Robinson" := 9876; "Tyreek Hill" := 5432]}.
Proof.
  split; [|split; [|split]].
  - destruct (refresh_all_or_nothing (ext:=Reference.externals)
                (GetRaised RequestException) league) as (_ & H & _).
    apply (H RequestException). reflexivity.
  - destruct (refresh_all_or_nothing (ext:=Reference.externals)
                (GetRaised RequestException) league) as (_ & H & _).
    apply (H RequestException). reflexivity.
  - destruct (refresh_all_or_nothing (ext:=Reference.externals)
                (Response 200 []) league) as (_ & _ & H & _).
    apply H. reflexivity.
  - destruct (refresh_all_or_nothing (ext:=Reference.externals)
                (Response 200 csv_rows) league) as (_ & _ & _ & H).
    apply H.
    + vm_compute. reflexivity.
    + intros Hempty.
      apply (f_equal (fun m : gmap string Z => m !! "Tyreek Hill")) in Hempty.
      vm_compute in Hempty. discriminate.
Defined.

Lemma override_precedence_witness :
  eval (get_ktc_value (ext:=Reference.externals) " CMC ") league
  = Val (9000, Some "Christian McCaffrey").
Proof.
  destruct (override_precedence (ext:=Reference.externals)
              " CMC " "Christian McCaffrey" league) as [_ H].
  - vm_compute. reflexivity.
  - apply H. vm_compute. reflexivity.
Defined.

(** C3, as the claim states it, fails on a table that holds the alias and
    not the canonical name: ["CMC"] then resolves to no name at all. *)
Lemma override_without_canonical_key :
  ktc_values alias_only !! "CMC" = Some 100
  /\ eval (get_ktc_value (ext:=Reference.externals) "CMC") alias_only
     = Val (0, None).
Proof. vm_compute. split; reflexivity. Qed.

(** Where the canonical form is no key of the table, the scan for a close
    match of the canonical form can come back to the alias: with the table
    [{"Bijan": 100}] the input ["Bijan"] becomes ["Bijan Robinson"], to
    which the key ["Bijan"] has similarity 10/19. *)
Lemma alias_key_can_be_the_close_match :
  ratio (ext:=Reference.externals) "Bijan" "Bijan Robinson" = 10 # 19
  /\ eval (get_ktc_value (ext:=Reference.externals) "Bijan")
          (World ∅ {["Bijan" := 100]} "unknown" ∅ 1 0 ∅ [] [] 0)
     = Val (100, Some "Bijan").
Proof. vm_compute. split; reflexivity. Qed.

Lemma league_keys key :
  is_Some (ktc_values league !! key) ->
  key = "Christian McCaffrey" \/ key = "Justin Jefferson" \/ key = "Travis Kelce Jr".
Proof.
  intros [value Hvalue]. apply elem_of_list_to_map_2 in Hvalue.
  rewrite !elem_of_cons, elem_of_nil in Hvalue.
  destruct Hvalue as [H|[H|[H|H]]]; [..|done]; injection H as H _; auto.
Qed.

Lemma fuzzy_threshold_boundary_witness :
  eval (get_ktc_value (ext:=Reference.externals) "Kelce") league
  = Val (4000, Some "Travis Kelce Jr")
  /\ eval (get_ktc_value (ext:=Reference.externals) "Zzyzx") league
     = Val (0, None).
Proof.
  split.
  - destruct (fuzzy_threshold_boundary (ext:=Reference.externals) "Kelce" league)
      as [H _]; [vm_compute; reflexivity..|].
    apply (H "Travis Kelce Jr" 4000).
    + vm_compute. reflexivity.
    + vm_compute. reflexivity.
    + intros other Hother Hne.
      destruct (league_keys other Hother) as [-> | [-> | ->]];
        [by vm_compute..|by destruct Hne].
  - destruct (fuzzy_threshold_boundary (ext:=Reference.externals) "Zzyzx" league)
      as [_ H]; [vm_compute; reflexivity..|].
    apply H. intros key Hkey.
    destruct (league_keys key Hkey) as [-> | [-> | ->]]; by vm_compute.
Defined.

Lemma resolve_is_deterministic_witness :
  eval (get_ktc_value (ext:=Reference.externals) "Zzyzx")
       (exec (set_players {["Zzyzx Quux" := 1]}) league)
  = eval (get_ktc_value (ext:=Reference.externals) "Zzyzx") league
  /\ eval (get_ktc_value (ext:=Reference.externals) "Zzyzx")
          (exec (set_players {["Zzyzx Quux" := 1]}) league)
     = Val (0, None).
Proof.
  destruct (resolve_is_deterministic (ext:=Reference.externals) "Zzyzx" league)
    as (Hsame & _ & _ & Hmiss).
  split.
  - apply Hsame. reflexivity.
  - apply Hmiss; vm_compute; reflexivity.
Defined.

Lemma known_or_unqualified_is_skipped_witness :
  eval (announce (ext:=Reference.externals) delivers ∅ waiver) league = Val Continue
  /\ eval (announce (ext:=Reference.externals) delivers ∅ players_swap)
          league_after_1002 = Val Continue
  /\ outbox (exec (announce (ext:=Reference.externals) delivers ∅ players_swap)
                  league_after_1002) = [].
Proof.
  destruct (known_or_unqualified_is_skipped (ext:=Reference.externals)
              (api [waiver; players_swap]) delivers None league) as (_ & _ & H).
  split; [|split].
  - apply (H ∅ [("transaction_id", JStr "1003"); ("type", JStr "waiver");
                ("status", JStr "complete");
                ("adds", JObj [("6794", JNum 1)]); ("roster_ids", JArr [JNum 1])]
             league).
    left. vm_compute. discriminate.
  - apply (H ∅ [("transaction_id", JStr "1002"); ("type", JStr "trade");
                ("status", JStr "complete");
                ("adds", JObj [("1466", JNum 1); ("4034", JNum 2)]);
                ("roster_ids", JArr [JNum 1; JNum 2])]
             league_after_1002).
    right; right. exists (HStr "1002"). split; [reflexivity|].
    vm_compute. reflexivity.
  - apply (H ∅ [("transaction_id", JStr "1002"); ("type", JStr "trade");
                ("status", JStr "complete");
                ("adds", JObj [("1466", JNum 1); ("4034", JNum 2)]);
                ("roster_ids", JArr [JNum 1; JNum 2])]
             league_after_1002).
    right; right. exists (HStr "1002"). split; [reflexivity|].
    vm_compute. reflexivity.
Defined.

Lemma fairness_verdict_witness :
  outbox (exec (fetch_and_announce_trades (ext:=Reference.externals)
                  (api [waiver; players_swap]) delivers None) league)
  = [swap_message]
  /\ footer (sent_embed swap_message) = WinsBy "Ravens" 5000.
Proof.
  destruct (fairness_verdict (ext:=Reference.externals)
              (api [waiver; players_swap]) delivers None league)
    as [(new & Hsent & Hnew) _].
  assert (outbox (exec (fetch_and_announce_trades (ext:=Reference.externals)
                          (api [waiver; players_swap]) delivers None) league)
          = [swap_message]) as Hout by (vm_compute; reflexivity).
  split; [exact Hout|].
  rewrite Hout in Hsent. simpl in Hsent. subst new.
  destruct (Hnew swap_message) as (_ & _ & H); [by left|].
  apply H; simpl; lia.
Defined.

(** C7, at the failing input.  With a pick-only trade, whose ["adds"] is
    [null], ahead of a trade of players in the feed, the cycle ends in an
    [AttributeError] raised at line 295: nothing is sent and no id becomes
    known, although the second trade alone is announced. *)
Theorem null_adds_aborts_the_cycle :
  eval (fetch_and_announce_trades (ext:=Reference.externals)
          (api [picks_only; players_swap]) delivers None) league
  = Exc AttributeError
  /\ outbox (exec (fetch_and_announce_trades (ext:=Reference.externals)
                     (api [picks_only; players_swap]) delivers None) league) = []
  /\ known_trade_ids
       (exec (fetch_and_announce_trades (ext:=Reference.externals)
                (api [picks_only; players_swap]) delivers None) league) = ∅
  /\ outbox (exec (fetch_and_announce_trades (ext:=Reference.externals)
                     (api [players_swap]) delivers None) league)
     = [swap_message].
Proof. vm_compute. repeat split. Qed.

(* ================================================================== *)
(** * Further properties of the script *)

(** ** WeekClock *)

(** X1.  From the threshold on, a recomputation seven days later gives the
    next week, a later recomputation never gives an earlier week, and the
    week is at least 2. *)
Theorem week_advances_every_seven_days (today later : Z) (w : world) :
  WEEK_2_START_DATE w <= today -> today <= later ->
  let week t := current_bot_week (exec (update_bot_week t) w) in
  week (today + 7 * microseconds_per_day) = week today + 1
  /\ week today <= week later
  /\ 2 <= week today.
Proof.
  intros Hge Hle week. unfold week.
  assert (0 < microseconds_per_day) as Hpos by done.
  rewrite !update_bot_week_after by lia.
  unfold days. set (d := microseconds_per_day) in *. repeat split.
  - replace (today + 7 * d - WEEK_2_START_DATE w)
      with ((today - WEEK_2_START_DATE w) + 7 * d) by lia.
    rewrite (Z.div_add _ 7 d) by lia.
    replace ((today - WEEK_2_START_DATE w) / d + 7)
      with ((today - WEEK_2_START_DATE w) / d + 1 * 7) by lia.
    rewrite Z.div_add by lia. lia.
  - apply Z.add_le_mono_l, Z.div_le_mono; [lia|].
    apply Z.div_le_mono; lia.
  - assert (0 <= (today - WEEK_2_START_DATE w) / d / 7); [|lia].
    apply Z.div_pos; [|lia]. apply Z.div_pos; lia.
Qed.

Lemma week_advances_every_seven_days_witness :
  current_bot_week
    (exec (update_bot_week (Sample.week2_start + 10 * microseconds_per_day
                            + 7 * microseconds_per_day)) Sample.league)
  = current_bot_week
      (exec (update_bot_week (Sample.week2_start + 10 * microseconds_per_day))
            Sample.league) + 1.
Proof.
  apply (week_advances_every_seven_days
           (Sample.week2_start + 10 * microseconds_per_day)
           (Sample.week2_start + 10 * microseconds_per_day) Sample.league).
  - vm_compute. discriminate.
  - lia.
Defined.

(** X2.  The threshold that start-up sets is a midnight, more than one day
    and at most two days after start-up; a recomputation at start-up or up
    to a day later therefore changes nothing, whatever the week was. *)
Theorem threshold_is_second_midnight (now today : Z) (w : world) :
  WEEK_2_START_DATE w = week2_start_at_ready now ->
  WEEK_2_START_DATE w mod microseconds_per_day = 0
  /\ now + microseconds_per_day < WEEK_2_START_DATE w <= now + 2 * microseconds_per_day
  /\ (today <= now + microseconds_per_day ->
      update_bot_week today w = (Val tt, w)).
Proof.
  intros HT. rewrite HT. unfold week2_start_at_ready.
  assert (0 < microseconds_per_day) as Hpos by done.
  pose proof (Z.mod_pos_bound now _ Hpos) as Hmod.
  split; [|split].
  - rewrite Z.add_mod, Z_mod_mult, Z.add_0_r, Z.mod_mod by lia.
    rewrite Zminus_mod, Z.mod_mod, Z.sub_diag by lia. done.
  - lia.
  - intros Hle. apply update_bot_week_before.
    rewrite HT. unfold week2_start_at_ready. lia.
Qed.

Lemma threshold_is_second_midnight_witness :
  update_bot_week Sample.next_day Sample.league = (Val tt, Sample.league).
Proof.
  destruct (threshold_is_second_midnight Sample.started Sample.next_day Sample.league)
    as (_ & _ & H).
  - vm_compute. reflexivity.
  - apply H. unfold Sample.next_day. lia.
Defined.

(** ** ValueStore and ValueIngestor *)

(** X3.  What [save_ktc_to_db] writes, [load_ktc_from_db] reads back: the
    load returns every saved pair, and for a name that was not saved the
    row the store had before, if any. *)
Theorem saved_values_load_back (d : gmap string Z) (w : world) :
  exists loaded,
    eval (save_ktc_to_db d;; load_ktc_from_db) w = Val loaded
    /\ (forall name val, d !! name = Some val -> loaded !! name = Some val)
    /\ (forall name, d !! name = None -> loaded !! name = players w !! name).
Proof.
  exists (d ∪ players w). split; [|split].
  - rewrite (eval_bind _ _ _ tt) by apply save_ktc_to_db_returns.
    unfold eval, load_ktc_from_db. rewrite run_bind. simpl.
    by rewrite save_ktc_to_db_players.
  - intros name val H. by apply lookup_union_Some_l.
  - intros name H. by apply lookup_union_r.
Qed.

Lemma saved_values_load_back_witness :
  exists loaded,
    eval (save_ktc_to_db {["Tyreek Hill" := 5432]};; load_ktc_from_db) Sample.league
    = Val loaded
    /\ loaded !! "Tyreek Hill" = Some 5432
    /\ loaded !! "Justin Jefferson" = Some 8500.
Proof.
  destruct (saved_values_load_back {["Tyreek Hill" := 5432]} Sample.league)
    as (loaded & Hload & Hsaved & Hkept).
  exists loaded. split; [exact Hload|]. split.
  - apply Hsaved. vm_compute. reflexivity.
  - rewrite Hkept by (vm_compute; reflexivity). vm_compute. reflexivity.
Defined.

(** X4.  A refresh never removes a player from the store; and after a
    refresh that parsed at least one pair, every pair of the value table is
    in the store, so that the store holds what the table holds. *)
Theorem refresh_writes_through `{ext : Externals} (resp : http_reply) (w : world) :
  let w' := exec (update_ktc resp) w in
  (forall name, is_Some (players w !! name) -> is_Some (players w' !! name))
  /\ (forall dp, eval (fetch_dp_values resp) w = Val dp -> dp ≠ ∅ ->
        forall name val, ktc_values w' !! name = Some val ->
                         players w' !! name = Some val).
Proof.
  intros w'. subst w'. split.
  - intros name Hname.
    destruct (eval (fetch_dp_values resp) w) as [dp|e] eqn:Hfetch.
    + destruct (decide (dp = ∅)) as [->|Hne].
      * unfold exec. by rewrite update_ktc_empty.
      * destruct (update_ktc_loaded resp w dp) as (_ & _ & ->); [done..|].
        rewrite lookup_union. destruct Hname as [v ->].
        destruct (dp !! name); done.
    + unfold exec. by rewrite (update_ktc_failed _ _ e).
  - intros dp Hfetch Hne name val.
    destruct (update_ktc_loaded resp w dp) as (_ & -> & ->); [done..|].
    intros H. by apply lookup_union_Some_l.
Qed.

Lemma refresh_writes_through_witness :
  players (exec (update_ktc (ext:=Reference.externals)
                            (Response 200 Sample.csv_rows)) Sample.league)
    !! "Bijan Robinson" = Some 9876
  /\ is_Some (players (exec (update_ktc (ext:=Reference.externals)
                                       (Response 200 Sample.csv_rows)) Sample.league)
                !! "Justin Jefferson").
Proof.
  destruct (refresh_writes_through (ext:=Reference.externals)
              (Response 200 Sample.csv_rows) Sample.league) as [Hkept Hthrough].
  split.
  - apply (Hthrough {["Bijan Robinson" := 9876; "Tyreek Hill" := 5432]}).
    + vm_compute. reflexivity.
    + intros Hempty.
      apply (f_equal (fun m : gmap string Z => m !! "Tyreek Hill")) in Hempty.
      vm_compute in Hempty. discriminate.
    + vm_compute. reflexivity.
  - apply Hkept. exists 8500. vm_compute. reflexivity.
Defined.

Lemma dict_of_rows_bad `{ext : Externals} rows acc row :
  row ∈ rows ->
  row !! "player" = None
  \/ row !! "value_1qb" = None
  \/ (exists cell, row !! "value_1qb" = Some cell /\ float_of_str cell = None) ->
  exists e, dict_of_rows rows acc = Exc e.
Proof.
  intros Hin Hbad. revert acc.
  induction rows as [|r rows IH]; intros acc; [by apply elem_of_nil in Hin|].
  simpl. destruct (r !! "player") as [player|] eqn:Hp; [|eauto].
  destruct (r !! "value_1qb") as [cell|] eqn:Hc; [|eauto].
  destruct (float_of_str cell) as [value|] eqn:Hf; [|eauto].
  apply elem_of_cons in Hin as [->|Hin]; [|by apply IH].
  destruct Hbad as [H|[H|(cell' & H & Hnone)]]; congruence.
Qed.

(** X5.  One row of the CSV that lacks the [player] or the [value_1qb]
    column, or whose value [float] does not read, wherever it stands among
    the rows, makes the refresh leave the value table and the store as
    they were. *)
Theorem one_bad_row_blocks_the_refresh `{ext : Externals}
    (status_code : Z) (rows : list (gmap string string))
    (row : gmap string string) (w : world) :
  row ∈ rows ->
  row !! "player" = None
  \/ row !! "value_1qb" = None
  \/ (exists cell, row !! "value_1qb" = Some cell /\ float_of_str cell = None) ->
  let w' := exec (update_ktc (Response status_code rows)) w in
  ktc_values w' = ktc_values w /\ players w' = players w.
Proof.
  intros Hin Hbad w'. subst w'.
  assert (exists e, eval (fetch_dp_values (Response status_code rows)) w = Exc e)
    as [e He].
  { unfold eval, fetch_dp_values. case_bool_decide; [by eexists|].
    destruct (dict_of_rows_bad rows ∅ row Hin Hbad) as [e ->]. by eexists. }
  unfold exec. by rewrite (update_ktc_failed _ _ e).
Qed.

Lemma one_bad_row_blocks_the_refresh_witness :
  ktc_values
    (exec (update_ktc (ext:=Reference.externals)
             (Response 200 (Sample.csv_rows
                            ++ [ {["player" := "Kyle Pitts"; "value_1qb" := "n/a"]} ])))
          Sample.league)
  = Sample.table.
Proof.
  apply (one_bad_row_blocks_the_refresh (ext:=Reference.externals) 200
           (Sample.csv_rows ++ [ {["player" := "Kyle Pitts"; "value_1qb" := "n/a"]} ])
           {["player" := "Kyle Pitts"; "value_1qb" := "n/a"]} Sample.league).
  - apply elem_of_app. right. by left.
  - right; right. exists "n/a". split; vm_compute; reflexivity.
Defined.

Lemma dict_of_rows_lookup `{ext : Externals} rows acc dp p :
  dict_of_rows rows acc = Val dp ->
  (forall before row after cell,
      rows = before ++ row :: after ->
      row !! "player" = Some p -> row !! "value_1qb" = Some cell ->
      Forall (fun r => r !! "player" ≠ Some p) after ->
      dp !! p = float_of_str cell)
  /\ (Forall (fun r => r !! "player" ≠ Some p) rows -> dp !! p = acc !! p).
Proof.
  revert acc. induction rows as [|r rows IH]; intros acc Hdp.
  - injection Hdp as <-. split; [|done].
    intros before ? ? ? H. by destruct before.
  - simpl in Hdp.
    destruct (r !! "player") as [player|] eqn:Hp; [|done].
    destruct (r !! "value_1qb") as [cell|] eqn:Hc; [|done].
    destruct (float_of_str cell) as [value|] eqn:Hf; [|done].
    destruct (IH _ Hdp) as [IHlast IHnone]. split.
    + intros before row after cell' Hrows Hrp Hrc Hafter.
      destruct before as [|r' before]; injection Hrows as -> ->.
      * rewrite IHnone by done. simplify_eq. rewrite Hf. apply lookup_insert_eq.
      * by apply (IHlast before row after).
    + intros Hall. apply Forall_cons in Hall as [Hr Hall].
      rewrite IHnone by done. apply lookup_insert_ne. congruence.
Qed.

(** X6.  When the fetch succeeds, the parsed table gives each player the
    value of the last row that names the player, and has no entry for a
    name that no row has. *)
Theorem last_row_of_a_player_wins `{ext : Externals}
    (status_code : Z) (rows : list (gmap string string)) (w : world)
    (dp : gmap string Z) (p : string) :
  eval (fetch_dp_values (Response status_code rows)) w = Val dp ->
  (forall before row after cell,
      rows = before ++ row :: after ->
      row !! "player" = Some p -> row !! "value_1qb" = Some cell ->
      Forall (fun r => r !! "player" ≠ Some p) after ->
      dp !! p = float_of_str cell)
  /\ (Forall (fun r => r !! "player" ≠ Some p) rows -> dp !! p = None).
Proof.
  unfold eval, fetch_dp_values. case_bool_decide; [done|].
  destruct (dict_of_rows rows ∅) as [dp'|e] eqn:Hrows; [|done].
  intros [= <-]. destruct (dict_of_rows_lookup rows ∅ dp' p Hrows) as [H1 H2].
  split; [done|]. intros Hall. by rewrite H2.
Qed.

Lemma last_row_of_a_player_wins_witness :
  ({["Bijan Robinson" := 1111; "Tyreek Hill" := 5432]} : gmap string Z)
    !! "Bijan Robinson"
  = float_of_str (Externals:=Reference.externals) "1111".
Proof.
  destruct (last_row_of_a_player_wins (ext:=Reference.externals) 200
              (Sample.csv_rows
               ++ [ {["player" := "Bijan Robinson"; "value_1qb" := "1111"]} ])
              Sample.league
              {["Bijan Robinson" := 1111; "Tyreek Hill" := 5432]}
              "Bijan Robinson") as [H _].
  - vm_compute. reflexivity.
  - apply (H Sample.csv_rows
             {["player" := "Bijan Robinson"; "value_1qb" := "1111"]} [] "1111").
    + reflexivity.
    + vm_compute. reflexivity.
    + vm_compute. reflexivity.
    + apply Forall_nil_2.
Defined.

(** ** NameResolver *)

Section Resolver.
Context {ext : Externals}.

Lemma tuple_lt_false_le p q : tuple_lt p q = false -> (q.1 <= p.1)%Q.
Proof.
  unfold tuple_lt. destruct (Qcompare_spec p.1 q.1) as [H|H|H]; [|done|].
  - intros _. rewrite H. apply Qle_refl.
  - intros _. by apply Qlt_le_weak.
Qed.

(** The first of the close matches is a possibility that reaches the
    cutoff and that no possibility exceeds. *)
Lemma get_close_matches_best word possibilities cutoff best rest :
  get_close_matches word possibilities 1 cutoff = best :: rest ->
  best ∈ possibilities
  /\ (cutoff <= ratio best word)%Q
  /\ forall x, x ∈ possibilities -> (ratio x word <= ratio best word)%Q.
Proof.
  intros Hclose.
  assert (best ∈ get_close_matches word possibilities 1 cutoff) as Hin
    by (rewrite Hclose; by left).
  apply get_close_matches_elem in Hin as [Hin Hcut].
  split; [done|]. split; [done|]. intros x Hx.
  destruct (Qlt_le_dec (ratio x word) cutoff) as [Hlow|Hhigh].
  { apply Qlt_le_weak. by apply (Qlt_le_trans _ cutoff). }
  revert Hclose. unfold get_close_matches, nlargest.
  set (result := omap _ possibilities).
  destruct (foldr insert_desc [] result) as [|h t] eqn:Hsorted; [done|].
  simpl. intros [= <- _].
  destruct (sorted_head _ _ _ Hsorted) as [Hh Hmax].
  apply list_elem_of_omap in Hh as (y & _ & Hy).
  destruct (Qle_bool cutoff (ratio y word)); [|done]. injection Hy as <-.
  simpl. apply (tuple_lt_false_le (ratio y word, y) (ratio x word, x)).
  apply Hmax. apply list_elem_of_omap. exists x. split; [done|].
  by rewrite (proj2 (Qle_bool_iff _ _) Hhigh).
Qed.

Lemma get_close_matches_nil word possibilities cutoff :
  get_close_matches word possibilities 1 cutoff = [] ->
  forall x, x ∈ possibilities -> (ratio x word < cutoff)%Q.
Proof.
  unfold get_close_matches, nlargest. intros Hnil x Hx.
  destruct (Qlt_le_dec (ratio x word) cutoff) as [Hlow|Hhigh]; [done|].
  assert ((ratio x word, x)
          ∈ foldr insert_desc []
              (omap (fun x => if Qle_bool cutoff (ratio x word)
                              then Some (ratio x word, x) else None) possibilities))
    as Hin.
  { apply sorted_elem, list_elem_of_omap. exists x. split; [done|].
    by rewrite (proj2 (Qle_bool_iff _ _) Hhigh). }
  destruct (foldr insert_desc [] _) as [|h t]; [by apply elem_of_nil in Hin|done].
Qed.

(** X7.  [get_ktc_value] always returns.  A name it returns is a key of the
    value table and the value is the one the table has for it; when it
    returns no name the value is 0, and then no key of the table has
    similarity 0.5 or more to the name looked up. *)
Theorem resolved_name_is_a_key (player_name : string) (w : world) :
  let name_input := default (strip player_name)
                            (manual_ktc_overrides !! strip player_name) in
  exists value matched,
    eval (get_ktc_value player_name) w = Val (value, matched)
    /\ match matched with
       | Some canonical => ktc_values w !! canonical = Some value
       | None =>
         value = 0
         /\ forall key, is_Some (ktc_values w !! key) ->
                        (ratio key name_input < 1 # 2)%Q
       end.
Proof.
  intros name_input. rewrite get_ktc_value_resolve. unfold resolve.
  fold name_input.
  destruct (ktc_values w !! name_input) as [value|] eqn:Hexact.
  { by exists value, (Some name_input). }
  destruct (get_close_matches _ _ _ _) as [|best rest] eqn:Hclose.
  - exists 0, None. split; [done|]. split; [done|].
    intros key Hkey. apply (get_close_matches_nil _ _ _ Hclose).
    by apply elem_of_keys.
  - destruct (get_close_matches_best _ _ _ _ _ Hclose) as (Hin & _).
    apply elem_of_keys in Hin as [value Hvalue].
    exists value, (Some best). by rewrite Hvalue.
Qed.

(** X8.  When the name looked up is no key of the table and a name is
    returned all the same, that name has similarity at least 0.5 to the
    name looked up, and no key of the table has more. *)
Theorem fuzzy_match_is_the_closest_key (player_name canonical : string)
    (value : Z) (w : world) :
  let name_input := default (strip player_name)
                            (manual_ktc_overrides !! strip player_name) in
  ktc_values w !! name_input = None ->
  eval (get_ktc_value player_name) w = Val (value, Some canonical) ->
  (1 # 2 <= ratio canonical name_input)%Q
  /\ forall key, is_Some (ktc_values w !! key) ->
                 (ratio key name_input <= ratio canonical name_input)%Q.
Proof.
  intros name_input Hexact. rewrite get_ktc_value_resolve. unfold resolve.
  fold name_input. rewrite Hexact.
  destruct (get_close_matches _ _ _ _) as [|best rest] eqn:Hclose; [done|].
  intros [= _ <-].
  destruct (get_close_matches_best _ _ _ _ _ Hclose) as (_ & Hcut & Hmax).
  split; [done|]. intros key Hkey. by apply Hmax, elem_of_keys.
Qed.

End Resolver.

Lemma fuzzy_match_is_the_closest_key_witness :
  (1 # 2 <= ratio (ext:=Reference.externals) "Travis Kelce Jr" "Kelce")%Q
  /\ (ratio (ext:=Reference.externals) "Justin Jefferson" "Kelce"
      <= ratio (ext:=Reference.externals) "Travis Kelce Jr" "Kelce")%Q.
Proof.
  destruct (fuzzy_match_is_the_closest_key (ext:=Reference.externals)
              "Kelce" "Travis Kelce Jr" 4000 Sample.league) as [Hcut Hmax].
  - vm_compute. reflexivity.
  - vm_compute. reflexivity.
  - split; [exact Hcut|]. apply Hmax. exists 8500. vm_compute. reflexivity.
Defined.

(** X9.  The best match does not depend on the order in which the keys of
    the table are gone through: any enumeration of the keys gives the
    match that the table's own enumeration gives. *)
Theorem best_match_ignores_key_order `{ext : Externals}
    (word : string) (table : gmap string Z) (order : list string) :
  order ≡ₚ keys table ->
  get_close_matches word order 1 (1 # 2)
  = get_close_matches word (keys table) 1 (1 # 2).
Proof. apply get_close_matches_perm. Qed.

Lemma best_match_ignores_key_order_witness :
  get_close_matches (ext:=Reference.externals) "Kelce"
    ["Travis Kelce Jr"; "Justin Jefferson"; "Christian McCaffrey"] 1 (1 # 2)
  = get_close_matches (ext:=Reference.externals) "Kelce"
      (keys Sample.table) 1 (1 # 2).
Proof.
  apply (best_match_ignores_key_order (ext:=Reference.externals)).
  apply NoDup_Permutation.
  - apply NoDup_ListNoDup. repeat constructor; simpl; intuition discriminate.
  - apply NoDup_keys.
  - intros x. rewrite elem_of_keys. split.
    + intros Hx. rewrite !elem_of_cons, elem_of_nil in Hx.
      destruct Hx as [->|[->|[->|Hx]]]; [..|done]; eexists; vm_compute; reflexivity.
    + intros Hx. destruct (league_keys x Hx) as [-> | [-> | ->]];
        rewrite !elem_of_cons; auto.
Defined.

(** *** White space around a name *)

Lemma rev_app_append s t u :
  String.rev_app s (t +:+ u) = String.rev_app s t +:+ u.
Proof.
  revert t. induction s as [|a s IH]; intros t; [done|].
  simpl. by rewrite <- IH.
Qed.

Lemma rev_app_of_append s t acc :
  String.rev_app (s +:+ t) acc = String.rev_app t (String.rev_app s acc).
Proof. revert acc. induction s as [|a s IH]; intros acc; [done|]. apply IH. Qed.

Lemma rev_append s t : String.rev (s +:+ t) = String.rev t +:+ String.rev s.
Proof.
  unfold String.rev. rewrite rev_app_of_append.
  by rewrite <- rev_app_append.
Qed.

Lemma lstrip_blank_append pad s : lstrip pad = "" -> lstrip (pad +:+ s) = lstrip s.
Proof.
  induction pad as [|c pad IH]; [done|].
  change (String c pad +:+ s) with (String c (pad +:+ s)). simpl.
  destruct (is_space c); [exact IH|done].
Qed.

Lemma lstrip_blank_rev pad : lstrip pad = "" -> lstrip (String.rev pad) = "".
Proof.
  induction pad as [|c pad IH]; [done|]. simpl.
  destruct (is_space c) eqn:Hc; [|done]. intros Hpad.
  unfold String.rev. simpl.
  change (String c "") with ("" +:+ String c ""). rewrite rev_app_append.
  rewrite lstrip_blank_append by (by apply IH). simpl. by rewrite Hc.
Qed.

Lemma rstrip_append_blank s pad : lstrip pad = "" -> rstrip (s +:+ pad) = rstrip s.
Proof.
  intros Hpad. unfold rstrip. rewrite rev_append.
  by rewrite lstrip_blank_append by (by apply lstrip_blank_rev).
Qed.

Lemma lstrip_append s t :
  lstrip (s +:+ t) = lstrip s +:+ t
  \/ (lstrip s = "" /\ lstrip (s +:+ t) = lstrip t).
Proof.
  induction s as [|c s IH]; [by right|].
  change (String c s +:+ t) with (String c (s +:+ t)). simpl.
  destruct (is_space c); [exact IH|by left].
Qed.

Lemma strip_padded pad1 name pad2 :
  lstrip pad1 = "" -> lstrip pad2 = "" ->
  strip (pad1 +:+ name +:+ pad2) = strip name.
Proof.
  intros H1 H2. unfold strip. rewrite lstrip_blank_append by done.
  destruct (lstrip_append name pad2) as [->|[Hname ->]].
  - by apply rstrip_append_blank.
  - by rewrite H2, Hname.
Qed.

Lemma is_space_white_space c : is_space c = true <-> c ∈ white_space.
Proof.
  split.
  - destruct c as [[] [] [] [] [] [] [] []]; intros H; try discriminate H;
      apply (bool_decide_unpack _); vm_compute; exact I.
  - unfold white_space. rewrite !elem_of_cons, elem_of_nil.
    intros H. repeat (destruct H as [->|H]; [reflexivity|]). done.
Qed.

Lemma lstrip_white_space pad :
  Forall (fun c => c ∈ white_space) (String.list_ascii_of_string pad) ->
  lstrip pad = "".
Proof.
  induction pad as [|c pad IH]; [done|]. simpl. intros H.
  apply Forall_cons in H as [Hc H].
  apply is_space_white_space in Hc. rewrite Hc. by apply IH.
Qed.

(** X10.  Tabs, line feeds, vertical tabs, form feeds, carriage returns,
    the separators 28 to 31 and spaces, in any number before and after a
    name, do not change what [get_ktc_value] returns for it. *)
Theorem surrounding_white_space_is_ignored `{ext : Externals}
    (pad1 player_name pad2 : string) (w : world) :
  Forall (fun c => c ∈ white_space) (String.list_ascii_of_string pad1) ->
  Forall (fun c => c ∈ white_space) (String.list_ascii_of_string pad2) ->
  eval (get_ktc_value (pad1 +:+ player_name +:+ pad2)) w
  = eval (get_ktc_value player_name) w.
Proof.
  intros H1%lstrip_white_space H2%lstrip_white_space.
  rewrite !get_ktc_value_resolve. unfold resolve.
  by rewrite strip_padded.
Qed.

Lemma surrounding_white_space_is_ignored_witness :
  eval (get_ktc_value (ext:=Reference.externals)
          (String "009" " " +:+ "CMC" +:+ String " " (String "010" "")))
       Sample.league
  = Val (9000, Some "Christian McCaffrey").
Proof.
  etrans.
  - apply (surrounding_white_space_is_ignored (ext:=Reference.externals)
             (String "009" " ") "CMC" (String " " (String "010" "")) Sample.league);
      repeat constructor; apply (bool_decide_unpack _); vm_compute; exact I.
  - vm_compute. reflexivity.
Defined.

(** ** TradeWatcher *)

Section Watcher.
Context {ext : Externals}.

Lemma leads_seq {A B} (P R Q : world -> Prop) (m : M A) (f : A -> M B) :
  leads P m R -> (forall w, R w -> Q w) -> (forall a, leads R (f a) Q) ->
  leads P (m ≫= f) Q.
Proof.
  intros Hm HRQ Hf w HP. unfold exec. rewrite run_bind.
  specialize (Hm w HP). unfold exec in Hm.
  destruct (m w) as [[a|e] w1]; simpl in *; [|by apply HRQ].
  by apply Hf.
Qed.

Lemma leads_consult I Q discord {B} (f : send_outcome -> M B) :
  (forall n, leads (on_trades I) (f (discord n)) Q) ->
  leads (on_trades I) (consult discord ≫= f) Q.
Proof.
  intros Hf w HP. unfold exec, consult. repeat (rewrite run_bind; simpl).
  by apply (Hf (discord_calls w)).
Qed.

Lemma emit_exact tid e outcome k w :
  outcome ≠ NoChannel ->
  let block :=
    try_except
      (channel_send tid e outcome;;
       w ← get;
       set_known_trade_ids ({[k]} ∪ known_trade_ids w);;
       print (SaySent tid))
      (fun e =>
         match e with
         | Forbidden => print SayNoPermission
         | _ => print (SaySendFailed e)
         end);;
    mret Continue in
  eval block w = Val Continue
  /\ known_trade_ids (exec block w) = known_after k (known_trade_ids w) outcome
  /\ outbox (exec block w) = outbox w ++ [Delivery tid e outcome].
Proof.
  intros Hout. destruct outcome as [|ex|ex|]; [done|..];
    try (by destruct ex); done.
Qed.

(** The loop body takes a state of the cycle where [I] holds to one where
    [J] holds, when [J] follows from [I] and holds after a message for a
    new completed trade is added to a state where [I] holds. *)
Lemma announce_leads discord name_map txn
    (I J : gset hkey -> list delivery -> Prop) :
  (forall known sent, I known sent -> J known sent) ->
  (forall known sent k e n,
      I known sent ->
      hash (txn_field "transaction_id" txn) = Some k -> k ∉ known ->
      txn_field "type" txn = JStr "trade" ->
      txn_field "status" txn = JStr "complete" ->
      discord n ≠ NoChannel ->
      J (known_after k known (discord n))
        (sent ++ [Delivery (txn_field "transaction_id" txn) e (discord n)])) ->
  leads (on_trades I) (announce discord name_map txn) (on_trades J).
Proof.
  intros HIJ Hstep. set (P := on_trades I). set (Post := on_trades J).
  assert (forall w, P w -> Post w) as HPQ by (intros w; apply HIJ).
  destruct txn as [| | | |fields]; try (by apply leads_raise_bind).
  unfold announce, dict_get. simpl in Hstep.
  set (tid := default JNull (assoc "transaction_id" fields)) in *.
  set (ttype := default JNull (assoc "type" fields)) in *.
  set (tstatus := default JNull (assoc "status" fields)) in *.
  do 3 apply leads_ret_bind.
  apply leads_bind; [by apply leads_frame|done|]; intros _.
  destruct (negb (is_str "trade" ttype) || negb (is_str "complete" tstatus))
    eqn:Hq; [by apply leads_stay|].
  apply orb_false_elim in Hq as [Htype%negb_false_iff%is_str_eq
                                 Hstatus%negb_false_iff%is_str_eq].
  unfold hashed. destruct (hash tid) as [k|] eqn:Hk; [|by apply leads_raise_bind].
  apply leads_ret_bind, leads_get. intros w0 HP0.
  case_bool_decide as Hnew; [apply leads_stay; intros ? ->; by apply HPQ|].
  set (P1 := on_trades (fun known sent => I known sent /\ k ∉ known)).
  assert (forall w, P1 w -> Post w) as HP1 by (intros w []; by apply HIJ).
  apply (leads_weaken _ P1); [by intros ? ->|]. clear w0 HP0 Hnew.
  apply leads_ret_bind. unfold dict_items.
  destruct (default (JObj []) (assoc "adds" fields)) as [| | | |items];
    try (by apply leads_raise_bind).
  apply leads_ret_bind.
  apply leads_bind; [apply leads_frame; apply reverse_of_frame|done|].
  intros reverse. apply leads_ret_bind. unfold slice2.
  assert (leads P1 (print (SayNotEnough tid);; mret Continue) Post) as Hshort.
  { apply leads_bind; [by apply leads_frame|done|].
    intros _. by apply leads_stay. }
  assert (forall r0 r1 (more : list json),
    leads P1
      (mret (r0 :: r1 :: more) ≫= fun rosters =>
       match rosters with
       | r0 :: r1 :: _ =>
         k0 ← hashed r0;
         let t0_ids := default [] (reverse !! k0) in
         k1 ← hashed r1;
         let t1_ids := default [] (reverse !! k1) in
         let t0_names := map (fun pid => default (JStr pid) (name_map !! pid)) t0_ids in
         let t1_names := map (fun pid => default (JStr pid) (name_map !! pid)) t1_ids in
         v0 ← sum_values t0_names 0;
         v1 ← sum_values t1_names 0;
         w ← get;
         let team0 := default ("Team " +:+ py_str k0) (user_map w !! k0) in
         let team1 := default ("Team " +:+ py_str k1) (user_map w !! k1) in
         gets0 ← join t0_names;
         gets1 ← join t1_names;
         let embed :=
           Embed team0 (if String.eqb gets0 "" then "None" else gets0)
                 team1 (if String.eqb gets1 "" then "None" else gets1)
                 v0 v1 (result_text team0 team1 v0 v1) in
         outcome ← consult discord;
         match outcome with
         | NoChannel => print SayNoChannel;; mret Return
         | _ =>
           try_except
             (channel_send tid embed outcome;;
              w ← get;
              set_known_trade_ids ({[k]} ∪ known_trade_ids w);;
              print (SaySent tid))
             (fun e =>
                match e with
                | Forbidden => print SayNoPermission
                | _ => print (SaySendFailed e)
                end);;
           mret Continue
         end
       | _ => print (SayNotEnough tid);; mret Continue
       end) Post) as Hrest.
  { intros r0 r1 more. apply leads_ret_bind. unfold hashed.
    destruct (hash r0) as [k0|]; [apply leads_ret_bind|by apply leads_raise_bind].
    cbv zeta.
    destruct (hash r1) as [k1|]; [apply leads_ret_bind|by apply leads_raise_bind].
    apply leads_bind; [apply leads_frame; apply sum_values_frame|done|]; intros v0.
    apply leads_bind; [apply leads_frame; apply sum_values_frame|done|]; intros v1.
    apply leads_get. intros w1 Hw1. apply (leads_weaken _ P1); [by intros ? ->|].
    apply leads_bind; [apply leads_frame; apply join_frame|done|]; intros gets0.
    apply leads_bind; [apply leads_frame; apply join_frame|done|]; intros gets1.
    apply leads_consult. intros n.
    destruct (discord n) as [|ex|ex|] eqn:Hn.
    { apply leads_bind; [by apply leads_frame|done|].
      intros _. by apply leads_stay. }
    all: intros w [HI Hfresh];
      match goal with
      | |- _ (exec (try_except (channel_send ?t ?e ?o;; _) _;; _) _) =>
        destruct (emit_exact t e o k w) as (_ & Hk' & Ho'); [done|];
        unfold Post, on_trades; rewrite Hk', Ho', <- Hn;
        apply Hstep; try done; by rewrite Hn
      end. }
  destruct (default (JArr []) (assoc "roster_ids" fields)) as [|n|s|rosters|flds];
    try (by apply leads_raise_bind).
  - destruct (chars s) as [|r0 [|r1 more]];
      [apply leads_ret_bind; exact Hshort..|apply (Hrest r0 r1 [])].
  - destruct rosters as [|r0 [|r1 more]];
      [apply leads_ret_bind; exact Hshort..|apply (Hrest r0 r1 [])].
Qed.

Lemma for_each_prefix {A} (Inv : list A -> world -> Prop) body (l p : list A) :
  (forall p x w, Inv p w -> Inv (p ++ [x]) w) ->
  (forall p x, x ∈ l -> leads (Inv p) (body x) (Inv (p ++ [x]))) ->
  leads (Inv p) (for_each l body) (Inv (p ++ l)).
Proof.
  intros Hmono. revert p. induction l as [|x l IH]; intros p Hbody; simpl.
  - rewrite (right_id_L [] (++)). by apply leads_stay.
  - assert (forall l' w, Inv (p ++ [x]) w -> Inv ((p ++ [x]) ++ l') w) as Hmore.
    { intros l' w. induction l' as [|y l' IHl'] using rev_ind.
      - by rewrite (right_id_L [] (++)).
      - intros Hw. rewrite (assoc_L (++)). by apply Hmono, IHl'. }
    replace (p ++ x :: l) with ((p ++ [x]) ++ l) by (by rewrite <- (assoc_L (++))).
    apply (leads_seq _ (Inv (p ++ [x]))).
    + apply Hbody. by left.
    + apply Hmore.
    + intros [|].
      * apply IH. intros p' y Hy. apply Hbody. by right.
      * apply leads_stay, Hmore.
Qed.

Lemma delivered_ids_snoc new tid e outcome k :
  hash tid = Some k ->
  delivered_ids (new ++ [Delivery tid e outcome])
  = delivered_ids new ++ match outcome with Delivered => [k] | _ => [] end.
Proof.
  intros Hk. unfold delivered_ids. rewrite omap_app. f_equal. simpl.
  destruct outcome; try done. by rewrite Hk.
Qed.

Lemma cycle_account_mono discord known sent seen more known' sent' :
  cycle_account discord known sent seen known' sent' ->
  cycle_account discord known sent (seen ++ more) known' sent'.
Proof.
  intros (new & ? & ? & ? & ? & ? & Hsub). exists new. repeat split; try done.
  rewrite fmap_app. by apply sublist_inserts_r.
Qed.

Lemma cycle_account_step discord known sent seen txn known' sent' k e n :
  cycle_account discord known sent seen known' sent' ->
  hash (txn_field "transaction_id" txn) = Some k -> k ∉ known' ->
  discord n ≠ NoChannel ->
  cycle_account discord known sent (seen ++ [txn])
    (known_after k known' (discord n))
    (sent' ++ [Delivery (txn_field "transaction_id" txn) e (discord n)]).
Proof.
  intros (new & -> & -> & Hnd & Hfresh & Hout & Hsub) Hk Hnew Hn.
  exists (new ++ [Delivery (txn_field "transaction_id" txn) e (discord n)]).
  rewrite (delivered_ids_snoc _ _ _ _ k) by done.
  assert (k ∉ delivered_ids new) as Hk1.
  { intros Hin. apply Hnew, elem_of_union. right. by apply elem_of_list_to_set. }
  assert (k ∉ known) as Hk0.
  { intros Hin. apply Hnew, elem_of_union. by left. }
  split; [by rewrite (assoc_L (++))|]. split; [|split; [|split; [|split]]].
  - destruct (discord n); simpl; rewrite ?(right_id_L [] (++)); try done.
    apply set_eq. intros x.
    rewrite !elem_of_union, !elem_of_list_to_set, elem_of_app.
    rewrite list_elem_of_singleton, elem_of_singleton. tauto.
  - destruct (discord n); rewrite ?(right_id_L [] (++)); try done.
    apply NoDup_app. split; [done|]. split; [|apply NoDup_singleton].
    intros x Hx ->%list_elem_of_singleton. done.
  - destruct (discord n); rewrite ?(right_id_L [] (++)); try done.
    apply Forall_app. split; [done|]. by apply Forall_singleton.
  - apply Forall_app. split; [done|]. apply Forall_singleton. by exists n.
  - rewrite !fmap_app. by apply sublist_app.
Qed.

Lemma cycle_account_start discord known sent :
  cycle_account discord known sent [] known sent.
Proof.
  exists []. simpl. split; [by rewrite (right_id_L [] (++))|].
  split; [by rewrite (right_id_L ∅ (∪))|].
  split; [apply NoDup_nil_2|]. split; [apply Forall_nil_2|].
  split; [apply Forall_nil_2|done].
Qed.

(** A poll cycle, however it ends, has sent messages in the order of the
    feed, has made known the ids of the delivered ones and no other, and
    has delivered no id twice. *)
Lemma poll_cycle_account api discord week_override w :
  on_trades (cycle_account discord (known_trade_ids w) (outbox w)
                           (feed api week_override w))
            (exec (fetch_and_announce_trades api discord week_override) w).
Proof.
  set (Inv := fun seen => on_trades (cycle_account discord (known_trade_ids w)
                                                   (outbox w) seen)).
  assert (forall seen more w', Inv seen w' -> Inv (seen ++ more) w') as Hmono
    by (intros seen more w'; apply cycle_account_mono).
  assert (forall transactions player_data current_week,
    leads (Inv [])
      (n ← py_len transactions;
       print (SayFetched n current_week);;
       name_map ← get_player_name_map player_data;
       txns ← py_iter transactions;
       for_each txns (announce discord name_map))
      (Inv (default [] (elements_of transactions)))) as Hrest.
  { intros transactions player_data current_week.
    apply leads_bind; [apply leads_frame; destruct transactions; by intros ?
                      |apply (Hmono [])|].
    intros n. apply leads_bind; [by apply leads_frame|apply (Hmono [])|]. intros _.
    apply leads_bind; [|apply (Hmono [])|].
    { unfold get_player_name_map, dict_items.
      apply leads_frame; frame; apply name_map_of_frame. }
    intros name_map. unfold py_iter.
    destruct (elements_of transactions) as [txns|];
      [apply leads_ret_bind|by apply leads_raise_bind].
    apply (for_each_prefix Inv _ txns []).
    - intros p x w'. apply Hmono.
    - intros p txn _. apply announce_leads.
      + intros K O. apply cycle_account_mono.
      + intros K O k e i HI Hk Hfresh _ _ Hi. by apply cycle_account_step. }
  unfold fetch_and_announce_trades, exec, feed.
  rewrite run_bind. simpl. rewrite run_bind. simpl.
  set (w1 := World _ _ _ _ _ _ _ _ _ _).
  change (current_week_of week_override w1) with (current_week_of week_override w).
  rewrite run_bind.
  destruct (get_transactions api (current_week_of week_override w))
    as [transactions|e]; [|apply cycle_account_start]. simpl.
  rewrite run_bind.
  destruct (get_players api) as [player_data|e]; simpl.
  - apply (Hrest transactions player_data (current_week_of week_override w) w1).
    apply cycle_account_start.
  - apply (Hmono [] _ w1), cycle_account_start.
Qed.

End Watcher.

(** X11.  The ids that a poll cycle makes known are exactly the ids of the
    messages it delivered: none of them was known before, none is
    delivered twice in the cycle, and an id whose message was not
    delivered does not become known. *)
Theorem delivered_ids_become_known `{ext : Externals}
    (api : sleeper) (discord : nat -> send_outcome) (week_override : option Z)
    (w : world) :
  let w' := exec (fetch_and_announce_trades api discord week_override) w in
  exists new,
    outbox w' = outbox w ++ new
    /\ known_trade_ids w' = known_trade_ids w ∪ list_to_set (delivered_ids new)
    /\ NoDup (delivered_ids new)
    /\ Forall (fun k => k ∉ known_trade_ids w) (delivered_ids new).
Proof.
  intros w'.
  destruct (poll_cycle_account api discord week_override w)
    as (new & Hsent & Hknown & Hnd & Hfresh & _).
  by exists new.
Qed.

(** X12.  The messages of a poll cycle bear ids of the feed in the order
    of the feed, one message at most for each transaction. *)
Theorem messages_follow_the_feed `{ext : Externals}
    (api : sleeper) (discord : nat -> send_outcome) (week_override : option Z)
    (w : world) :
  let w' := exec (fetch_and_announce_trades api discord week_override) w in
  exists new,
    outbox w' = outbox w ++ new
    /\ sublist (sent_tid <$> new)
               (txn_field "transaction_id" <$> feed api week_override w)
    /\ (length new <= length (feed api week_override w))%nat.
Proof.
  intros w'.
  destruct (poll_cycle_account api discord week_override w)
    as (new & Hsent & _ & _ & _ & _ & Hsub).
  exists new. split; [done|]. split; [done|].
  apply sublist_length in Hsub. by rewrite !length_fmap in Hsub.
Qed.

Lemma delivered_ids_none (discord : nat -> send_outcome) new :
  (forall n, discord n ≠ Delivered) ->
  Forall (fun d => exists n, sent_outcome d = discord n /\ discord n ≠ NoChannel) new ->
  delivered_ids new = [].
Proof.
  intros Hnever Hall. induction Hall as [|d new (n & Hd & _) _ IH]; [done|].
  specialize (Hnever n). rewrite <- Hd in Hnever.
  unfold delivered_ids in *. simpl.
  by destruct (sent_outcome d).
Qed.

(** X13.  While Discord delivers nothing, a poll cycle makes no id known,
    so that the same trades qualify again in the next cycle; and while the
    channel is not found, it sends nothing either. *)
Theorem nothing_known_without_delivery `{ext : Externals}
    (api : sleeper) (discord : nat -> send_outcome) (week_override : option Z)
    (w : world) :
  (forall n, discord n ≠ Delivered) ->
  let w' := exec (fetch_and_announce_trades api discord week_override) w in
  known_trade_ids w' = known_trade_ids w
  /\ ((forall n, discord n = NoChannel) -> outbox w' = outbox w).
Proof.
  intros Hnever w'.
  destruct (poll_cycle_account api discord week_override w)
    as (new & Hsent & Hknown & _ & _ & Hout & _).
  fold w' in Hsent, Hknown. split.
  - rewrite Hknown, (delivered_ids_none discord) by done.
    simpl. apply (right_id_L ∅ (∪)).
  - intros Hnone. rewrite Hsent.
    destruct Hout as [|d new (n & _ & Hn) _]; [apply (right_id_L [] (++))|].
    by destruct (Hn (Hnone n)).
Qed.

Lemma nothing_known_without_delivery_witness :
  known_trade_ids
    (exec (fetch_and_announce_trades (ext:=Reference.externals)
             (Sample.api [Sample.players_swap])
             (fun _ => ReactionRaised HTTPException) None) Sample.league)
  = known_trade_ids Sample.league
  /\ outbox
       (exec (fetch_and_announce_trades (ext:=Reference.externals)
                (Sample.api [Sample.players_swap])
                (fun _ => NoChannel) None) Sample.league)
     = outbox Sample.league.
Proof.
  split.
  - apply (nothing_known_without_delivery (ext:=Reference.externals)
             (Sample.api [Sample.players_swap])
             (fun _ => ReactionRaised HTTPException) None Sample.league).
    intros _. discriminate.
  - apply (nothing_known_without_delivery (ext:=Reference.externals)
             (Sample.api [Sample.players_swap])
             (fun _ => NoChannel) None Sample.league).
    + intros _. discriminate.
    + intros _. reflexivity.
Defined.

Section HappyPath.
Context {ext : Externals}.

Lemma quiet_refl w : quiet w w.
Proof. by repeat split. Qed.

Lemma quiet_trans w1 w2 w3 : quiet w1 w2 -> quiet w2 w3 -> quiet w1 w3.
Proof.
  unfold quiet. intros (?&?&?&?&?&?&?&?&?) (?&?&?&?&?&?&?&?&?).
  repeat split; congruence.
Qed.

Lemma quiet_print l w : quiet w (exec (print l) w).
Proof. by repeat split. Qed.

Lemma get_ktc_value_run player_name w :
  exists w', get_ktc_value player_name w
             = (Val (resolve (ktc_values w) player_name), w')
             /\ quiet w w'.
Proof.
  exists (exec (get_ktc_value player_name) w). split.
  - by rewrite (run_eta (get_ktc_value player_name)), get_ktc_value_resolve.
  - destruct (get_ktc_value_frame player_name)
      as (H1 & H2 & H3 & H4 & H5 & H6 & H7 & H8 & H9).
    repeat split; auto.
Qed.

Lemma sum_values_run names acc w :
  exists w', sum_values (JStr <$> names) acc w
             = (Val (acc + total (ktc_values w) names), w')
             /\ quiet w w'.
Proof.
  revert acc w. induction names as [|n names IH]; intros acc w.
  - exists w. split; [|apply quiet_refl]. simpl. unfold total. simpl.
    by rewrite Z.add_0_r.
  - destruct (get_ktc_value_run n w) as (w1 & Hrun & Hq1).
    destruct (IH (acc + (resolve (ktc_values w) n).1) w1) as (w2 & Hrest & Hq2).
    exists w2. split; [|by apply (quiet_trans _ w1)].
    simpl. unfold get_ktc_value_of. repeat (rewrite run_bind; simpl).
    rewrite Hrun. simpl.
    change (list_fmap string json JStr names) with (JStr <$> names). rewrite Hrest.
    destruct Hq1 as (_ & -> & _). unfold total. simpl. f_equal. f_equal. lia.
Qed.

Lemma join_run names w : join (JStr <$> names) w = (Val (joined names), w).
Proof.
  induction names as [|s names IH]; [done|].
  rewrite fmap_cons. cbn [join]. rewrite run_bind, IH. simpl. by destruct names.
Qed.

Lemma reverse_of_run items acc w :
  Forall (fun item => is_Some (hash item.2)) items ->
  exists reverse,
    reverse_of items acc w = (Val reverse, w)
    /\ forall k, default [] (reverse !! k)
                 = default [] (acc !! k) ++ side_ids items k.
Proof.
  intros Hall. revert acc.
  induction Hall as [|[pid rid] items [h Hh] _ IH]; intros acc.
  - exists acc. split; [done|]. intros k. unfold side_ids. simpl.
    by rewrite (right_id_L [] (++)).
  - simpl in Hh.
    destruct (IH (<[h := default [] (acc !! h) ++ [pid]]> acc))
      as (reverse & Hrun & Hlookup).
    exists reverse. split.
    + simpl. unfold hashed. rewrite Hh. by rewrite run_bind.
    + intros k. rewrite Hlookup. unfold side_ids. simpl. rewrite Hh.
      destruct (decide (h = k)) as [->|Hne].
      * rewrite lookup_insert_eq, bool_decide_eq_true_2 by done.
        simpl. by rewrite <- (assoc_L (++)).
      * rewrite lookup_insert_ne, bool_decide_eq_false_2 by congruence. done.
Qed.

Lemma announce_run discord name_map fields w k k0 k1 items r0 r1 more
    names0 names1 :
  let tid := default JNull (assoc "transaction_id" fields) in
  default JNull (assoc "type" fields) = JStr "trade" ->
  default JNull (assoc "status" fields) = JStr "complete" ->
  hash tid = Some k -> k ∉ known_trade_ids w ->
  default (JObj []) (assoc "adds" fields) = JObj items ->
  Forall (fun item => is_Some (hash item.2)) items ->
  default (JArr []) (assoc "roster_ids" fields) = JArr (r0 :: r1 :: more) ->
  hash r0 = Some k0 -> hash r1 = Some k1 ->
  side_names name_map items k0 = JStr <$> names0 ->
  side_names name_map items k1 = JStr <$> names1 ->
  discord (discord_calls w) = Delivered ->
  let team0 := default ("Team " +:+ py_str k0) (user_map w !! k0) in
  let team1 := default ("Team " +:+ py_str k1) (user_map w !! k1) in
  let v0 := total (ktc_values w) names0 in
  let v1 := total (ktc_values w) names1 in
  exists w',
    announce discord name_map (JObj fields) w = (Val Continue, w')
    /\ known_trade_ids w' = {[k]} ∪ known_trade_ids w
    /\ outbox w'
       = outbox w ++ [Delivery tid
                        (Embed team0 (shown names0) team1 (shown names1) v0 v1
                               (result_text team0 team1 v0 v1))
                        Delivered].
Proof.
  intros tid Htype Hstatus Hk Hnew Hadds Hall Hrosters Hk0 Hk1 Hside0 Hside1
         Hdel team0 team1 v0 v1.
  unfold announce, dict_get. fold tid.
  rewrite Htype, Hstatus, Hadds, Hrosters.
  repeat (rewrite run_bind; simpl).
  unfold hashed at 1. rewrite Hk. simpl.
  rewrite run_bind. simpl. rewrite bool_decide_eq_false_2 by done.
  set (w1 := World _ _ _ _ _ _ _ _ _ _).
  assert (quiet w w1) as Hq1 by (by repeat split).
  repeat (rewrite run_bind; simpl).
  destruct (reverse_of_run items ∅ w1 Hall) as (reverse & -> & Hlook).
  repeat (rewrite run_bind; simpl).
  unfold hashed. rewrite Hk0. simpl. rewrite run_bind. rewrite Hk1. simpl.
  rewrite !Hlook, !lookup_empty. simpl.
  change (map (fun pid => default (JStr pid) (name_map !! pid)) (side_ids items k0))
    with (side_names name_map items k0).
  change (map (fun pid => default (JStr pid) (name_map !! pid)) (side_ids items k1))
    with (side_names name_map items k1).
  rewrite Hside0, Hside1.
  destruct (sum_values_run names0 0 w1) as (w2 & Hsum0 & Hq2).
  destruct (sum_values_run names1 0 w2) as (w3 & Hsum1 & Hq3).
  rewrite run_bind, Hsum0. simpl. rewrite run_bind, Hsum1. simpl.
  rewrite run_bind. simpl.
  rewrite run_bind, join_run. simpl. rewrite run_bind, join_run. simpl.
  pose proof (quiet_trans _ _ _ Hq1 Hq2) as Hw2.
  pose proof (quiet_trans _ _ _ Hw2 Hq3) as Hw3.
  destruct Hw2 as (_ & Hkv2 & _).
  destruct Hw3 as (Hkn & _ & _ & Hum & _ & _ & _ & Hob & Hdc).
  rewrite Hkv2, Hum, !Z.add_0_l.
  unfold consult. repeat (rewrite run_bind; simpl).
  rewrite Hdc, Hdel. unfold try_except.
  repeat (rewrite run_bind; simpl).
  eexists. split; [reflexivity|]. simpl. rewrite Hkn, Hob. done.
Qed.

(** X14.  A completed trade with a new id, with adds that give each player
    to a roster and with at least two roster ids, whose sides have names
    that are strings, is announced when Discord delivers: the loop goes
    on, the id becomes known, and one message is sent.  It shows for each
    of the first two rosters its team, the players the adds give to it in
    the order of the adds, and the sum of what their names resolve to,
    with the verdict of the two sums. *)
Theorem a_new_trade_is_announced discord name_map fields w k k0 k1 items r0 r1 more
    names0 names1 :
  let txn := JObj fields in
  let tid := txn_field "transaction_id" txn in
  txn_field "type" txn = JStr "trade" ->
  txn_field "status" txn = JStr "complete" ->
  hash tid = Some k -> k ∉ known_trade_ids w ->
  default (JObj []) (assoc "adds" fields) = JObj items ->
  Forall (fun item => is_Some (hash item.2)) items ->
  default (JArr []) (assoc "roster_ids" fields) = JArr (r0 :: r1 :: more) ->
  hash r0 = Some k0 -> hash r1 = Some k1 ->
  side_names name_map items k0 = JStr <$> names0 ->
  side_names name_map items k1 = JStr <$> names1 ->
  discord (discord_calls w) = Delivered ->
  let team0 := default ("Team " +:+ py_str k0) (user_map w !! k0) in
  let team1 := default ("Team " +:+ py_str k1) (user_map w !! k1) in
  let v0 := total (ktc_values w) names0 in
  let v1 := total (ktc_values w) names1 in
  let w' := exec (announce discord name_map txn) w in
  eval (announce discord name_map txn) w = Val Continue
  /\ known_trade_ids w' = {[k]} ∪ known_trade_ids w
  /\ outbox w'
     = outbox w ++ [Delivery tid
                      (Embed team0 (shown names0) team1 (shown names1) v0 v1
                             (result_text team0 team1 v0 v1))
                      Delivered].
Proof.
  intros txn tid Htype Hstatus Hk Hnew Hadds Hall Hrosters Hk0 Hk1 Hside0 Hside1
         Hdel team0 team1 v0 v1 w'.
  destruct (announce_run discord name_map fields w k k0 k1 items r0 r1 more
              names0 names1) as (w2 & Hrun & Hknown & Hsent); try done.
  subst w' txn. unfold eval, exec. rewrite Hrun. done.
Qed.

End HappyPath.

Lemma a_new_trade_is_announced_witness :
  outbox (exec (announce (ext:=Reference.externals) Sample.delivers
                         {["4034" := JStr "Christian McCaffrey";
                           "1466" := JStr "Travis Kelce Jr"]}
                         Sample.players_swap) Sample.league)
  = [Sample.swap_message].
Proof.
  destruct (a_new_trade_is_announced (ext:=Reference.externals) Sample.delivers
              {["4034" := JStr "Christian McCaffrey";
                "1466" := JStr "Travis Kelce Jr"]}
              [("transaction_id", JStr "1002"); ("type", JStr "trade");
               ("status", JStr "complete");
               ("adds", JObj [("1466", JNum 1); ("4034", JNum 2)]);
               ("roster_ids", JArr [JNum 1; JNum 2])]
              Sample.league (HStr "1002") (HInt 1) (HInt 2)
              [("1466", JNum 1); ("4034", JNum 2)] (JNum 1) (JNum 2) []
              ["Travis Kelce Jr"] ["Christian McCaffrey"])
    as (_ & _ & H).
  - reflexivity.
  - reflexivity.
  - reflexivity.
  - apply not_elem_of_empty.
  - reflexivity.
  - repeat constructor; eexists; reflexivity.
  - reflexivity.
  - reflexivity.
  - reflexivity.
  - vm_compute. reflexivity.
  - vm_compute. reflexivity.
  - reflexivity.
  - etrans; [exact H|]. vm_compute. reflexivity.
Defined.

(** X15.  When the request for the transactions raises, when the request
    for the players raises, or when the feed is something a loop cannot go
    through, the poll cycle ends in that exception before it looks at any
    transaction: nothing is sent and no id becomes known. *)
Theorem failed_fetch_ends_the_cycle `{ext : Externals}
    (api : sleeper) (discord : nat -> send_outcome) (week_override : option Z)
    (w : world) (e : exn) :
  get_transactions api (current_week_of week_override w) = Exc e
  \/ (exists transactions,
        get_transactions api (current_week_of week_override w) = Val transactions
        /\ get_players api = Exc e)
  \/ (exists transactions player_data,
        get_transactions api (current_week_of week_override w) = Val transactions
        /\ get_players api = Val player_data
        /\ (transactions = JNull \/ exists n, transactions = JNum n)
        /\ e = TypeError) ->
  let w' := exec (fetch_and_announce_trades api discord week_override) w in
  eval (fetch_and_announce_trades api discord week_override) w = Exc e
  /\ outbox w' = outbox w
  /\ known_trade_ids w' = known_trade_ids w.
Proof.
  intros H w'. subst w'.
  unfold eval, exec, fetch_and_announce_trades.
  rewrite run_bind. simpl. rewrite run_bind. simpl.
  set (w1 := World _ _ _ _ _ _ _ _ _ _).
  change (current_week_of week_override w1) with (current_week_of week_override w).
  rewrite run_bind.
  destruct H as [->|[(t & -> & Hp)|(t & pd & -> & Hp & Ht & ->)]]; simpl.
  - done.
  - rewrite run_bind, Hp. done.
  - rewrite run_bind, Hp. simpl. rewrite run_bind.
    by destruct Ht as [->|[n ->]].
Qed.

Lemma failed_fetch_ends_the_cycle_witness :
  eval (fetch_and_announce_trades (ext:=Reference.externals)
          (Sleeper (fun _ => Val (JArr [Sample.players_swap])) (Exc ClientError))
          Sample.delivers None) Sample.league
  = Exc ClientError.
Proof.
  apply (failed_fetch_ends_the_cycle (ext:=Reference.externals)
           (Sleeper (fun _ => Val (JArr [Sample.players_swap])) (Exc ClientError))
           Sample.delivers None Sample.league ClientError).
  right; left. by exists (JArr [Sample.players_swap]).
Defined.

Lemma name_map_of_run items acc w :
  NoDup items.*1 ->
  Forall (fun item => exists pdata, item.2 = JObj pdata) items ->
  exists name_map,
    name_map_of items acc w = (Val name_map, w)
    /\ (forall pid pdata, (pid, JObj pdata) ∈ items ->
          name_map !! pid = match assoc "full_name" pdata with
                            | Some name => Some name
                            | None => acc !! pid
                            end)
    /\ (forall pid, pid ∉ items.*1 -> name_map !! pid = acc !! pid).
Proof.
  intros Hnd Hall. revert acc.
  induction Hall as [|[pid0 pdata0] items [pd Hpd] _ IH]; intros acc.
  - exists acc. split; [done|]. split; [|done].
    intros pid pdata Hin. by apply elem_of_nil in Hin.
  - simpl in Hpd. subst pdata0. apply NoDup_cons in Hnd as [Hfresh Hnd].
    simpl. unfold has_full_name, full_name.
    destruct (assoc "full_name" pd) as [name|] eqn:Hname.
    + destruct (IH Hnd (<[pid0 := name]> acc)) as (m & Hrun & Hin & Hout).
      exists m. split; [|split].
      * repeat (rewrite run_bind; simpl). exact Hrun.
      * intros pid pdata Hmem. apply elem_of_cons in Hmem as [[= -> ->]|Hmem].
        -- rewrite Hout by done. by rewrite lookup_insert_eq, Hname.
        -- rewrite (Hin _ _ Hmem). destruct (assoc "full_name" pdata); [done|].
           apply lookup_insert_ne. intros ->. apply Hfresh.
           apply list_elem_of_fmap. by exists (pid, JObj pdata).
      * intros pid Hpid. apply not_elem_of_cons in Hpid as [Hne Hpid].
        rewrite Hout by done. by apply lookup_insert_ne.
    + destruct (IH Hnd acc) as (m & Hrun & Hin & Hout).
      exists m. split; [|split].
      * repeat (rewrite run_bind; simpl). exact Hrun.
      * intros pid pdata Hmem. apply elem_of_cons in Hmem as [[= -> ->]|Hmem].
        -- rewrite Hout by done. by rewrite Hname.
        -- by apply Hin.
      * intros pid Hpid. apply not_elem_of_cons in Hpid as [Hne Hpid].
        by apply Hout.
Qed.

(** X16.  From a directory whose entries are objects,
    [get_player_name_map] returns a map that has, for each player id, what
    the entry holds under ["full_name"], and nothing for an id whose entry
    has no such key or that the directory does not have. *)
Theorem name_map_holds_the_full_names (items : list (string * json)) (w : world) :
  NoDup items.*1 ->
  Forall (fun item => exists pdata, item.2 = JObj pdata) items ->
  exists name_map,
    get_player_name_map (JObj items) w = (Val name_map, w)
    /\ (forall pid pdata, (pid, JObj pdata) ∈ items ->
          name_map !! pid = assoc "full_name" pdata)
    /\ (forall pid, pid ∉ items.*1 -> name_map !! pid = None).
Proof.
  intros Hnd Hall.
  destruct (name_map_of_run items ∅ w Hnd Hall) as (m & Hrun & Hin & Hout).
  exists m. split; [|split].
  - unfold get_player_name_map, dict_items. by rewrite run_bind.
  - intros pid pdata Hmem. rewrite (Hin _ _ Hmem).
    by destruct (assoc "full_name" pdata).
  - intros pid Hpid. by rewrite Hout.
Qed.

Lemma name_map_holds_the_full_names_witness :
  exists name_map,
    get_player_name_map Sample.directory Sample.league
    = (Val name_map, Sample.league)
    /\ name_map !! "1466" = Some (JStr "Travis Kelce Jr").
Proof.
  destruct (name_map_holds_the_full_names
              [("4034", JObj [("full_name", JStr "Christian McCaffrey")]);
               ("6794", JObj [("full_name", JStr "Justin Jefferson")]);
               ("1466", JObj [("full_name", JStr "Travis Kelce Jr")])]
              Sample.league) as (name_map & Hrun & Hin & _).
  - apply NoDup_ListNoDup. repeat constructor; simpl; intuition discriminate.
  - repeat constructor; eexists; reflexivity.
  - exists name_map. split; [exact Hrun|].
    apply (Hin "1466" [("full_name", JStr "Travis Kelce Jr")]).
    do 2 right. left.
Defined.

(** ** The commands *)

Section CommandProperties.
Context {ext : Externals}.




End CommandProperties.
